(** * The to-do store: [save] and [fetch] of store.py

    store.py keeps a to-do list in the file [todo.json]:
    [save] writes the list with [json.dump], [fetch] reads it back with
    [json.load] and answers the empty list when anything goes wrong.

    The development embeds
    - Python values of the types the [json] module knows, and one
      constructor for every other object;
    - the encoder and the decoder of the [json] module with their default
      settings, following the reference implementation in Lib/json
      (encoder.py, decoder.py, scanner.py);
    - a small file system: a finite map from paths to nodes, text files
      opened for reading or for writing, the [with] statement;
    - [save] and [fetch] themselves, line by line.

    Python strings are sequences of code points, integers are unbounded.
    Floating point numbers are a parameter of the development: the type,
    the conversion from a numeral and the printer are section variables,
    and no statement below depends on what they do.

    Left out of the model: tuples (the encoder prints them as lists),
    values that contain themselves, the digits of other scripts (a number
    is made of the digits 0 to 9, as in the scanner written in C), and the
    limit that newer interpreters put on the number of digits of an integer
    that is converted to or from text. *)

From Stdlib Require Import ZArith NArith List String Ascii Bool Lia ZifyBool.
From Stdlib Require Import Wf_nat.
From Stdlib Require Import Decimal DecimalFacts DecimalPos DecimalN DecimalZ.
From stdpp Require Import gmap strings.
Import ListNotations.

#[local] Set Warnings "-register-all".
#[local] Set Warnings "-notation-overridden,-ambiguous-paths".


Local Open Scope N_scope.

(** ** Text *)

(** A Python [str] is a sequence of code points, each below [0x110000]. *)
Definition codepoint := N.
Definition pystr := list codepoint.

Definition ord (a : ascii) : codepoint := N_of_ascii a.

(** [lit s] is the Python string literal with the (8-bit) characters of
    [s]. *)
Definition lit (s : string) : pystr := map ord (list_ascii_of_string s).

Definition is_codepoint (c : codepoint) : Prop := c < 0x110000.
Definition is_str (s : pystr) : Prop := Forall is_codepoint s.

Definition quote : codepoint := 34.
Definition backslash : codepoint := 92.

(** [s.startswith(prefix)], and the rest of [s] after the prefix. *)
Fixpoint strip_prefix (prefix s : pystr) : option pystr :=
  match prefix, s with
  | [], _ => Some s
  | p :: prefix', c :: s' => if p =? c then strip_prefix prefix' s' else None
  | _ :: _, [] => None
  end.

(** ** Exceptions *)

(** The exceptions the modelled code raises; all of them are subclasses of
    [Exception], except [StopIteration]'s use inside the scanner, which
    never leaves the decoder. *)
Inductive exn : Type :=
| FileNotFoundError
| PermissionError
| IsADirectoryError
| NoSpaceLeftOnDevice            (* OSError, errno ENOSPC *)
| UnicodeDecodeError
| TypeError (msg : string)
| RecursionError
| StopIteration
| UnsupportedOperation           (* io.UnsupportedOperation *)
| JSONDecodeError (msg : string).

Inductive outcome (A : Type) : Type :=
| Return (a : A)
| Raise (e : exn).
Arguments Return {A} a.
Arguments Raise {A} e.

Definition obind {A B} (x : outcome A) (k : A -> outcome B) : outcome B :=
  match x with
  | Return a => k a
  | Raise e => Raise e
  end.

(** The two [TypeError]s of the encoder. *)
Definition not_serializable (cls : string) : exn :=
  TypeError (String.append "Object of type "
              (String.append cls " is not JSON serializable")).

Definition bad_key (cls : string) : exn :=
  TypeError (String.append "keys must be str, int, float, bool or None, not " cls).

(** ** Generators of text chunks *)

(** What a generator of chunks does when it is run to its end: the chunks
    it yields, in order, and the exception that stops it, if any. *)
Definition trace : Type := list pystr * option exn.

Definition yield (chunk : pystr) : trace := ([chunk], None).
Definition throw (e : exn) : trace := ([], Some e).
Definition done_ : trace := ([], None).

(** [t1] and then, when [t1] ends normally, [t2]. *)
Definition andthen (t1 t2 : trace) : trace :=
  match t1 with
  | (cs, Some e) => (cs, Some e)
  | (cs, None) => (cs ++ fst t2, snd t2)
  end.

(** ** Integers as text *)

Definition digit_char (d : N) : codepoint := 48 + d.

Fixpoint uint_chars (u : uint) : pystr :=
  match u with
  | Nil => []
  | D0 u => digit_char 0 :: uint_chars u
  | D1 u => digit_char 1 :: uint_chars u
  | D2 u => digit_char 2 :: uint_chars u
  | D3 u => digit_char 3 :: uint_chars u
  | D4 u => digit_char 4 :: uint_chars u
  | D5 u => digit_char 5 :: uint_chars u
  | D6 u => digit_char 6 :: uint_chars u
  | D7 u => digit_char 7 :: uint_chars u
  | D8 u => digit_char 8 :: uint_chars u
  | D9 u => digit_char 9 :: uint_chars u
  end.

(** [int.__repr__]. *)
Definition intstr (z : Z) : pystr :=
  match Z.to_int z with
  | Pos u => uint_chars u
  | Neg u => ord "-" :: uint_chars u
  end.

Definition is_digit (c : codepoint) : bool := (48 <=? c) && (c <=? 57).

(** The decimal digits of a text, read up to the first other character. *)
Fixpoint chars_uint (s : pystr) : uint :=
  match s with
  | [] => Nil
  | c :: s' =>
    if negb (is_digit c) then Nil
    else match c - 48 with
         | 0 => D0 | 1 => D1 | 2 => D2 | 3 => D3 | 4 => D4
         | 5 => D5 | 6 => D6 | 7 => D7 | 8 => D8 | _ => D9
         end (chars_uint s')
  end.

(** [int(s)] for a text that matches [-?[0-9]+]. *)
Definition int_of_str (s : pystr) : Z :=
  match s with
  | c :: s' => if c =? ord "-" then Z.of_int (Neg (chars_uint s'))
               else Z.of_int (Pos (chars_uint s))
  | [] => 0%Z
  end.

(** ** Strings as JSON text: [py_encode_basestring_ascii] *)

Definition hex_char (d : N) : codepoint := if d <? 10 then 48 + d else 87 + d.

(** ['\\u{0:04x}'.format(n)], for [n < 0x10000]. *)
Definition u_escape (n : N) : pystr :=
  [backslash; ord "u";
   hex_char (n / 4096 mod 16); hex_char (n / 256 mod 16);
   hex_char (n / 16 mod 16); hex_char (n mod 16)].

(** [ESCAPE_ASCII]: a backslash, a double quote and every character
    outside the range from the space to the tilde are replaced. *)
Definition needs_escape (c : codepoint) : bool :=
  (c =? backslash) || (c =? quote) || negb ((32 <=? c) && (c <=? 126)).

(** [replace]: the entry of [ESCAPE_DCT], or a [\uXXXX] escape, or a
    surrogate pair of them. *)
Definition replace (c : codepoint) : pystr :=
  if c =? backslash then [backslash; backslash]
  else if c =? quote then [backslash; quote]
  else if c =? 8 then [backslash; ord "b"]
  else if c =? 12 then [backslash; ord "f"]
  else if c =? 10 then [backslash; ord "n"]
  else if c =? 13 then [backslash; ord "r"]
  else if c =? 9 then [backslash; ord "t"]
  else if c <? 0x10000 then u_escape c
  else
    let n := c - 0x10000 in
    let s1 := N.lor 0xd800 (N.land (N.shiftr n 10) 0x3ff) in
    let s2 := N.lor 0xdc00 (N.land n 0x3ff) in
    u_escape s1 ++ u_escape s2.

Definition escape_char (c : codepoint) : pystr :=
  if needs_escape c then replace c else [c].

Definition encode_basestring_ascii (s : pystr) : pystr :=
  quote :: flat_map escape_char s ++ [quote].

(** ** Files *)

(** What a file holds, as a program that opens it in text mode sees it:
    a text, or bytes that are no text in the encoding of the locale. *)
Inductive contents : Type :=
| Text (t : pystr)
| Undecodable.

Inductive node : Type :=
| File (readable writable : bool) (data : contents)
| Directory.

Inductive open_mode : Type := ModeR | ModeW.

Record file_object : Type := {
  name : string;
  mode : open_mode
}.

(** The part of the world the store lives in: the entries of the current
    directory, whether the directory takes new entries, how long a file on
    the device may grow ([None]: no limit), the file objects that are
    open, and what has been printed. *)
Record world : Type := {
  files : gmap string node;
  may_create : bool;
  room : option nat;
  opened : list file_object;
  stdout : list exn
}.

Definition set_files (fs : gmap string node) (w : world) : world :=
  {| files := fs; may_create := may_create w; room := room w;
     opened := opened w; stdout := stdout w |}.

Definition set_opened (fos : list file_object) (w : world) : world :=
  {| files := files w; may_create := may_create w; room := room w;
     opened := fos; stdout := stdout w |}.

Definition set_stdout (out : list exn) (w : world) : world :=
  {| files := files w; may_create := may_create w; room := room w;
     opened := opened w; stdout := out |}.

(** A statement: it ends normally with a value or raises, and changes the
    world. *)
Definition M (A : Type) : Type := world -> outcome A * world.

Definition ret {A} (a : A) : M A := fun w => (Return a, w).
Definition raise {A} (e : exn) : M A := fun w => (Raise e, w).
Definition bind {A B} (m : M A) (k : A -> M B) : M B :=
  fun w =>
    match m w with
    | (Return a, w') => k a w'
    | (Raise e, w') => (Raise e, w')
    end.

Notation "x <- m ;; k" := (bind m (fun x => k))
  (at level 100, m at next level, right associativity).
Notation "m ;;; k" := (bind m (fun _ => k))
  (at level 100, right associativity).

(** [try: body / except Exception as ee: handler]. *)
Definition try_except {A} (body : M A) (handler : exn -> M A) : M A :=
  fun w =>
    match body w with
    | (Raise ee, w') => handler ee w'
    | r => r
    end.

(** [print(ee)]. *)
Definition print (ee : exn) : M unit :=
  fun w => (Return tt, set_stdout (stdout w ++ [ee]) w).

(** [open(path, 'r')] and [open(path, 'w')]; the latter creates the file
    or empties it. *)
Definition open_ (path : string) (m : open_mode) : M file_object :=
  fun w =>
    let f := {| name := path; mode := m |} in
    match files w !! path, m with
    | Some Directory, _ => (Raise IsADirectoryError, w)
    | None, ModeR => (Raise FileNotFoundError, w)
    | Some (File readable _ _), ModeR =>
      if readable then (Return f, set_opened (f :: opened w) w)
      else (Raise PermissionError, w)
    | None, ModeW =>
      if may_create w then
        (Return f, set_opened (f :: opened w)
                     (set_files (<[path := File true true (Text [])]> (files w)) w))
      else (Raise PermissionError, w)
    | Some (File readable writable _), ModeW =>
      if writable then
        (Return f, set_opened (f :: opened w)
                     (set_files (<[path := File readable writable (Text [])]> (files w)) w))
      else (Raise PermissionError, w)
    end.

Definition file_object_eqb (f g : file_object) : bool :=
  String.eqb (name f) (name g) &&
  match mode f, mode g with
  | ModeR, ModeR | ModeW, ModeW => true
  | _, _ => false
  end.

Fixpoint remove_first (f : file_object) (fos : list file_object) : list file_object :=
  match fos with
  | [] => []
  | g :: fos' => if file_object_eqb f g then fos' else g :: remove_first f fos'
  end.

(** [f.close()]. *)
Definition close (f : file_object) : M unit :=
  fun w => (Return tt, set_opened (remove_first f (opened w)) w).

(** [with open(path, mode) as f: body]: the file is closed when the body
    ends, normally or not, and what the body raises is raised again. *)
Definition with_open {A} (path : string) (m : open_mode)
    (body : file_object -> M A) : M A :=
  fun w =>
    match open_ path m w with
    | (Raise e, w1) => (Raise e, w1)
    | (Return f, w1) =>
      let (r, w2) := body f w1 in
      let (_, w3) := close f w2 in
      (r, w3)
    end.

Definition fits (limit : option nat) (t : pystr) : bool :=
  match limit with
  | None => true
  | Some n => Nat.leb (length t) n
  end.

(** [f.write(chunk)]: the chunk goes to the end of the file, or the device
    is full. Buffering is left out: it delays the writes until the file is
    closed at the latest, and save and fetch look at the file only after
    that. *)
Definition write (f : file_object) (chunk : pystr) : M unit :=
  fun w =>
    match mode f, files w !! name f with
    | ModeW, Some (File readable writable (Text t)) =>
      if fits (room w) (t ++ chunk) then
        (Return tt,
         set_files (<[name f := File readable writable (Text (t ++ chunk))]> (files w)) w)
      else (Raise NoSpaceLeftOnDevice, w)
    | _, _ => (Raise UnsupportedOperation, w)
    end.

(** [f.read()]. *)
Definition read (f : file_object) : M pystr :=
  fun w =>
    match mode f, files w !! name f with
    | ModeR, Some (File _ _ (Text t)) => (Return t, w)
    | ModeR, Some (File _ _ Undecodable) => (Raise UnicodeDecodeError, w)
    | _, _ => (Raise UnsupportedOperation, w)
    end.

(** [w'] differs from [w] at most in the entry [path] of the directory. *)
Definition same_but (path : string) (w w' : world) : Prop :=
  may_create w' = may_create w /\ room w' = room w /\
  opened w' = opened w /\ stdout w' = stdout w /\
  forall q, q <> path -> files w' !! q = files w !! q.

Section Json.

(** Floating point numbers: Python's [float], [float(numeral)] and the
    encoder's [floatstr] (which prints NaN and the infinities by name and
    every other number with [float.__repr__]). *)
Context {float : Type}.
Variable parse_float : pystr -> float.
Variable floatstr : float -> pystr.

(** ** Python values *)

Inductive pyval : Type :=
| PNone
| PBool (b : bool)
| PInt (z : Z)
| PFloat (x : float)
| PStr (s : pystr)
| PList (l : list pyval)
| PDict (d : list (pyval * pyval))   (* the items, in insertion order *)
| PObj (cls : string).               (* an object of any other class *)

(** ** The encoder: [_make_iterencode] with the default settings *)

(** A scalar is printed in one piece; [None] stands for the [else] branch
    of the [isinstance] chain. *)
Definition encode_scalar (value : pyval) : option pystr :=
  match value with
  | PStr s => Some (encode_basestring_ascii s)
  | PNone => Some (lit "null")
  | PBool true => Some (lit "true")
  | PBool false => Some (lit "false")
  | PInt z => Some (intstr z)
  | PFloat x => Some (floatstr x)
  | _ => None
  end.

Definition item_separator : pystr := lit ", ".
Definition key_separator : pystr := lit ": ".

(** The loop of [_iterencode_list]; [buf] is ['['] before the first
    element and the separator before the others. *)
Fixpoint iterencode_list_loop (chunks : pyval -> trace) (buf : pystr)
    (lst : list pyval) : trace :=
  match lst with
  | [] => yield (lit "]")
  | value :: lst' =>
    andthen
      match encode_scalar value with
      | Some text => yield (buf ++ text)
      | None => andthen (yield buf) (chunks value)
      end
      (iterencode_list_loop chunks item_separator lst')
  end.

Definition iterencode_list (chunks : pyval -> trace) (lst : list pyval) : trace :=
  match lst with
  | [] => yield (lit "[]")
  | _ => iterencode_list_loop chunks (lit "[") lst
  end.

(** The key of an item as the encoder prints it. *)
Definition encode_key (key : pyval) : outcome pystr :=
  match key with
  | PStr s => Return s
  | PFloat x => Return (floatstr x)
  | PBool true => Return (lit "true")
  | PBool false => Return (lit "false")
  | PNone => Return (lit "null")
  | PInt z => Return (intstr z)
  | PList _ => Raise (bad_key "list")
  | PDict _ => Raise (bad_key "dict")
  | PObj cls => Raise (bad_key cls)
  end.

(** The loop of [_iterencode_dict]. *)
Fixpoint iterencode_dict_loop (chunks : pyval -> trace) (first : bool)
    (items : list (pyval * pyval)) : trace :=
  match items with
  | [] => yield (lit "}")
  | (key, value) :: items' =>
    match encode_key key with
    | Raise e => throw e
    | Return key =>
      andthen (if first then done_ else yield item_separator)
     (andthen (yield (encode_basestring_ascii key))
     (andthen (yield key_separator)
     (andthen
        match encode_scalar value with
        | Some text => yield text
        | None => chunks value
        end
        (iterencode_dict_loop chunks false items'))))
    end
  end.

Definition iterencode_dict (chunks : pyval -> trace) (dct : list (pyval * pyval)) : trace :=
  match dct with
  | [] => yield (lit "{}")
  | _ => andthen (yield (lit "{")) (iterencode_dict_loop chunks true dct)
  end.

(** [_iterencode]; [depth] is the number of nested generators the
    interpreter still allows. *)
Fixpoint iterencode (depth : nat) (o : pyval) : trace :=
  match depth with
  | O => throw RecursionError
  | S depth' =>
    match encode_scalar o with
    | Some text => yield text
    | None =>
      match o with
      | PList lst => iterencode_list (iterencode depth') lst
      | PDict dct => iterencode_dict (iterencode depth') dct
      | PObj cls => throw (not_serializable cls)
      | _ => done_
      end
    end
  end.

(** ** The decoder: [py_scanstring], [JSONArray], [JSONObject],
    [py_make_scanner] and [JSONDecoder.decode] *)

(** [WHITESPACE.match(s, end).end()]: the text after the blanks. *)
Definition is_ws (c : codepoint) : bool :=
  (c =? 32) || (c =? 9) || (c =? 10) || (c =? 13).

Fixpoint skip_ws (s : pystr) : pystr :=
  match s with
  | c :: s' => if is_ws c then skip_ws s' else s
  | [] => []
  end.

Definition hex_value (c : codepoint) : option N :=
  if (48 <=? c) && (c <=? 57) then Some (c - 48)
  else if (97 <=? c) && (c <=? 102) then Some (c - 87)
  else if (65 <=? c) && (c <=? 70) then Some (c - 55)
  else None.

(** [_decode_uXXXX] on the four characters after the [u]. *)
Definition decode_hex4 (h1 h2 h3 h4 : codepoint) : option N :=
  match hex_value h1, hex_value h2, hex_value h3, hex_value h4 with
  | Some a, Some b, Some c, Some d => Some (((a * 16 + b) * 16 + c) * 16 + d)
  | _, _, _, _ => None
  end.

(** [BACKSLASH]: the one-letter escapes. *)
Definition unescape (esc : codepoint) : option codepoint :=
  if esc =? quote then Some quote
  else if esc =? backslash then Some backslash
  else if esc =? ord "/" then Some (ord "/")
  else if esc =? ord "b" then Some 8
  else if esc =? ord "f" then Some 12
  else if esc =? ord "n" then Some 10
  else if esc =? ord "r" then Some 13
  else if esc =? ord "t" then Some 9
  else None.

Definition is_high_surrogate (uni : N) : bool := (0xd800 <=? uni) && (uni <=? 0xdbff).
Definition is_low_surrogate (uni : N) : bool := (0xdc00 <=? uni) && (uni <=? 0xdfff).

(** The code point a surrogate pair stands for. *)
Definition join_pair (uni uni2 : N) : codepoint :=
  0x10000 + N.lor (N.shiftl (uni - 0xd800) 10) (uni2 - 0xdc00).

(** What the decoder makes of an encoded string: a high surrogate that is
    followed by a low one is read together with it as one code point. *)
Fixpoint join_surrogates (s : pystr) : pystr :=
  match s with
  | [] => []
  | h :: s' =>
    match s' with
    | [] => [h]
    | l :: s'' =>
      if is_high_surrogate h && is_low_surrogate l
      then join_pair h l :: join_surrogates s''
      else h :: join_surrogates s'
    end
  end.

Definition push {A} (c : codepoint) (r : outcome (pystr * A)) : outcome (pystr * A) :=
  obind r (fun '(str, rest) => Return (c :: str, rest)).

(** [py_scanstring(s, end)] with [strict=True]; [s] is the text after the
    opening quote, the result is the string and the text after the closing
    quote. *)
Fixpoint scanstring (s : pystr) : outcome (pystr * pystr) :=
  match s with
  | [] => Raise (JSONDecodeError "Unterminated string starting at")
  | c :: s1 =>
    if c =? quote then Return ([], s1)
    else if c =? backslash then
      match s1 with
      | [] => Raise (JSONDecodeError "Unterminated string starting at")
      | esc :: s2 =>
        if esc =? ord "u" then
          match s2 with
          | h1 :: h2 :: h3 :: h4 :: s3 =>
            match decode_hex4 h1 h2 h3 h4 with
            | None => Raise (JSONDecodeError "Invalid \uXXXX escape")
            | Some uni =>
              if is_high_surrogate uni then
                match s3 with
                | b :: u :: s4 =>
                  if (b =? backslash) && (u =? ord "u") then
                    match s4 with
                    | k1 :: k2 :: k3 :: k4 :: s5 =>
                      match decode_hex4 k1 k2 k3 k4 with
                      | None => Raise (JSONDecodeError "Invalid \uXXXX escape")
                      | Some uni2 =>
                        if is_low_surrogate uni2 then
                          push (join_pair uni uni2) (scanstring s5)
                        else push uni (scanstring s3)
                      end
                    | _ => Raise (JSONDecodeError "Invalid \uXXXX escape")
                    end
                  else push uni (scanstring s3)
                | _ => push uni (scanstring s3)
                end
              else push uni (scanstring s3)
            end
          | _ => Raise (JSONDecodeError "Invalid \uXXXX escape")
          end
        else
          match unescape esc with
          | Some char => push char (scanstring s2)
          | None => Raise (JSONDecodeError "Invalid \escape")
          end
      end
    else if c <? 32 then Raise (JSONDecodeError "Invalid control character at")
    else push c (scanstring s1)
  end.

(** The text [t] does not go on with the escape of a low surrogate. *)
Definition no_low_escape (t : pystr) : Prop :=
  match t with
  | b :: u :: s4 =>
    if (b =? backslash) && (u =? ord "u") then
      match s4 with
      | k1 :: k2 :: k3 :: k4 :: _ =>
        exists uni2, decode_hex4 k1 k2 k3 k4 = Some uni2 /\ is_low_surrogate uni2 = false
      | _ => False
      end
    else True
  | _ => True
  end.

(** [NUMBER_RE]: an integer part, an optional fraction, an optional
    exponent. *)
Fixpoint span_digits (s : pystr) : pystr * pystr :=
  match s with
  | c :: s' =>
    if is_digit c then let (ds, rest) := span_digits s' in (c :: ds, rest)
    else ([], s)
  | [] => ([], [])
  end.

Definition match_sign (signs : list codepoint) (s : pystr) : pystr * pystr :=
  match s with
  | c :: s' => if existsb (N.eqb c) signs then ([c], s') else ([], s)
  | [] => ([], [])
  end.

Definition match_integer (s : pystr) : option (pystr * pystr) :=
  let (sign, s1) := match_sign [ord "-"] s in
  match s1 with
  | d :: s2 =>
    if d =? ord "0" then Some (sign ++ [d], s2)
    else if is_digit d then
      let (ds, s3) := span_digits s2 in Some (sign ++ d :: ds, s3)
    else None
  | [] => None
  end.

Definition match_frac (s : pystr) : option (pystr * pystr) :=
  match s with
  | c :: s1 =>
    if c =? ord "." then
      match span_digits s1 with
      | ([], _) => None
      | (ds, s2) => Some (c :: ds, s2)
      end
    else None
  | [] => None
  end.

Definition match_exp (s : pystr) : option (pystr * pystr) :=
  match s with
  | c :: s1 =>
    if (c =? ord "e") || (c =? ord "E") then
      let (sign, s2) := match_sign [ord "-"; ord "+"] s1 in
      match span_digits s2 with
      | ([], _) => None
      | (ds, s3) => Some (c :: sign ++ ds, s3)
      end
    else None
  | [] => None
  end.

(** [match_number(string, idx)]: the three groups and the text after the
    match. *)
Definition match_number (s : pystr)
  : option (pystr * option pystr * option pystr * pystr) :=
  match match_integer s with
  | None => None
  | Some (integer, s1) =>
    let (frac, s2) :=
      match match_frac s1 with
      | Some (frac, s2) => (Some frac, s2)
      | None => (None, s1)
      end in
    let (exp, s3) :=
      match match_exp s2 with
      | Some (exp, s3) => (Some exp, s3)
      | None => (None, s2)
      end in
    Some (integer, frac, exp, s3)
  end.

(** A text that cannot go on a number: it is empty, or its first character
    is no digit, no point and no exponent letter. *)
Definition number_end (rest : pystr) : bool :=
  match rest with
  | [] => true
  | c :: _ => negb (is_digit c || (c =? ord ".") || (c =? ord "e") || (c =? ord "E"))
  end.

Definition or_empty (group : option pystr) : pystr :=
  match group with Some g => g | None => [] end.

(** An exhausted scanner means a value was expected. *)
Definition expecting_value {A} (r : outcome A) : outcome A :=
  match r with
  | Raise StopIteration => Raise (JSONDecodeError "Expecting value")
  | _ => r
  end.

(** The loop of [JSONArray]. It runs once for each element, so never more
    often than the text has characters: [fuel] counts them. *)
Fixpoint array_loop (scan : pystr -> outcome (pyval * pystr)) (fuel : nat)
    (values : list pyval) (s : pystr) : outcome (pyval * pystr) :=
  match expecting_value (scan s) with
  | Raise e => Raise e
  | Return (value, s1) =>
    let values := values ++ [value] in
    match skip_ws s1 with
    | [] => Raise (JSONDecodeError "Expecting ',' delimiter")
    | nextchar :: s2 =>
      if nextchar =? ord "]" then Return (PList values, s2)
      else if negb (nextchar =? ord ",") then
        Raise (JSONDecodeError "Expecting ',' delimiter")
      else
        match fuel with
        | S fuel' => array_loop scan fuel' values (skip_ws s2)
        | O => Raise (JSONDecodeError "Expecting value")
        end
    end
  end.

Definition JSONArray (scan : pystr -> outcome (pyval * pystr)) (s : pystr)
  : outcome (pyval * pystr) :=
  match skip_ws s with
  | [] => array_loop scan (length s) [] []
  | nextchar :: s1 =>
    if nextchar =? ord "]" then Return (PList [], s1)
    else array_loop scan (length s) [] (nextchar :: s1)
  end.

Definition is_key (key : pystr) (k : pyval) : bool :=
  match k with
  | PStr k' => bool_decide (k' = key)
  | _ => false
  end.

(** [d[key] = value]: a new key goes to the end, a key the dictionary has
    keeps its place. *)
Fixpoint dict_setitem (d : list (pyval * pyval)) (key : pystr) (value : pyval)
  : list (pyval * pyval) :=
  match d with
  | [] => [(PStr key, value)]
  | (k, v) :: d' =>
    if is_key key k then (k, value) :: d'
    else (k, v) :: dict_setitem d' key value
  end.

(** [dict(pairs)]. *)
Definition dict_of_pairs (pairs : list (pystr * pyval)) : list (pyval * pyval) :=
  fold_left (fun d '(key, value) => dict_setitem d key value) pairs [].

(** The loop of [JSONObject]; [s] is the text after the opening quote of
    the next key. *)
Fixpoint object_loop (scan : pystr -> outcome (pyval * pystr)) (fuel : nat)
    (pairs : list (pystr * pyval)) (s : pystr) : outcome (pyval * pystr) :=
  match scanstring s with
  | Raise e => Raise e
  | Return (key, s1) =>
    match skip_ws s1 with
    | [] => Raise (JSONDecodeError "Expecting ':' delimiter")
    | colon :: s2 =>
      if negb (colon =? ord ":") then
        Raise (JSONDecodeError "Expecting ':' delimiter")
      else
        match expecting_value (scan (skip_ws s2)) with
        | Raise e => Raise e
        | Return (value, s3) =>
          let pairs := pairs ++ [(key, value)] in
          match skip_ws s3 with
          | [] => Raise (JSONDecodeError "Expecting ',' delimiter")
          | nextchar :: s4 =>
            if nextchar =? ord "}" then Return (PDict (dict_of_pairs pairs), s4)
            else if negb (nextchar =? ord ",") then
              Raise (JSONDecodeError "Expecting ',' delimiter")
            else
              match skip_ws s4 with
              | [] =>
                Raise (JSONDecodeError
                         "Expecting property name enclosed in double quotes")
              | q :: s5 =>
                if negb (q =? quote) then
                  Raise (JSONDecodeError
                           "Expecting property name enclosed in double quotes")
                else
                  match fuel with
                  | S fuel' => object_loop scan fuel' pairs s5
                  | O => Raise (JSONDecodeError "Expecting value")
                  end
              end
          end
        end
    end
  end.

Definition JSONObject (scan : pystr -> outcome (pyval * pystr)) (s : pystr)
  : outcome (pyval * pystr) :=
  match skip_ws s with
  | [] => Raise (JSONDecodeError "Expecting property name enclosed in double quotes")
  | nextchar :: s1 =>
    if nextchar =? quote then object_loop scan (length s) [] s1
    else if nextchar =? ord "}" then Return (PDict [], s1)
    else Raise (JSONDecodeError "Expecting property name enclosed in double quotes")
  end.

(** The numbers and the named constants, the tail of [_scan_once]. *)
Definition scan_number (s : pystr) : outcome (pyval * pystr) :=
  match match_number s with
  | Some (integer, frac, exp, rest) =>
    match frac, exp with
    | None, None => Return (PInt (int_of_str integer), rest)
    | _, _ => Return (PFloat (parse_float (integer ++ or_empty frac ++ or_empty exp)), rest)
    end
  | None =>
    match strip_prefix (lit "NaN") s with
    | Some rest => Return (PFloat (parse_float (lit "nan")), rest)
    | None =>
      match strip_prefix (lit "Infinity") s with
      | Some rest => Return (PFloat (parse_float (lit "inf")), rest)
      | None =>
        match strip_prefix (lit "-Infinity") s with
        | Some rest => Return (PFloat (parse_float (lit "-inf")), rest)
        | None => Raise StopIteration
        end
      end
    end
  end.

(** [_scan_once(string, idx)]; [depth] is the number of nested calls the
    interpreter still allows. *)
Fixpoint scan_once (depth : nat) (s : pystr) : outcome (pyval * pystr) :=
  match depth with
  | O => Raise RecursionError
  | S depth' =>
    match s with
    | [] => Raise StopIteration
    | nextchar :: s' =>
      if nextchar =? quote then
        obind (scanstring s') (fun '(str, rest) => Return (PStr str, rest))
      else if nextchar =? ord "{" then JSONObject (scan_once depth') s'
      else if nextchar =? ord "[" then JSONArray (scan_once depth') s'
      else
        match strip_prefix (lit "null") s with
        | Some rest => Return (PNone, rest)
        | None =>
          match strip_prefix (lit "true") s with
          | Some rest => Return (PBool true, rest)
          | None =>
            match strip_prefix (lit "false") s with
            | Some rest => Return (PBool false, rest)
            | None => scan_number s
            end
          end
        end
    end
  end.

(** [sys.getrecursionlimit()]. *)
Definition recursion_limit : nat := 1000.

(** [json.loads(s)] for a [str]: [JSONDecoder.decode]. *)
Definition json_loads (s : pystr) : outcome pyval :=
  match strip_prefix [0xfeff] s with
  | Some _ => Raise (JSONDecodeError "Unexpected UTF-8 BOM (decode using utf-8-sig)")
  | None =>
    match expecting_value (scan_once recursion_limit (skip_ws s)) with
    | Raise e => Raise e
    | Return (obj, rest) =>
      match skip_ws rest with
      | [] => Return obj
      | _ :: _ => Raise (JSONDecodeError "Extra data")
      end
    end
  end.

(** [json.dumps(o)], as far as the encoder gets. *)
Definition json_chunks (o : pyval) : trace := iterencode recursion_limit o.

(** ** [json.dump] and [json.load] *)

(** [for chunk in iterable: fp.write(chunk)]. *)
Fixpoint write_chunks (fp : file_object) (chunks : list pystr) : M unit :=
  match chunks with
  | [] => ret tt
  | chunk :: chunks' => write fp chunk ;;; write_chunks fp chunks'
  end.

Definition json_dump (obj : pyval) (fp : file_object) : M unit :=
  let (chunks, stopped) := json_chunks obj in
  write_chunks fp chunks ;;;
  match stopped with
  | Some e => raise e
  | None => ret tt
  end.

Definition json_load (fp : file_object) : M pyval :=
  s <- read fp ;;
  match json_loads s with
  | Return obj => ret obj
  | Raise e => raise e
  end.

(** ** store.py *)

Definition file_name : string := "todo.json".

Definition save (todo_list : pyval) : M unit :=
  with_open file_name ModeW (fun f =>
    json_dump todo_list f).

Definition fetch : M pyval :=
  try_except
    (with_open file_name ModeR (fun f =>
       todo_list <- json_load f ;;
       ret todo_list))
    (fun ee =>
       print ee ;;;
       ret (PList [])).

(** ** Task records *)

(** [item: {'id': int, 'content': str, 'status': str}]. *)
Record item : Type := {
  id : Z;
  content : pystr;
  status : pystr
}.

Definition item_value (i : item) : pyval :=
  PDict [(PStr (lit "id"), PInt (id i));
         (PStr (lit "content"), PStr (content i));
         (PStr (lit "status"), PStr (status i))].

(** [todo_list: [item]]. *)
Definition todo_value (todo_list : list item) : pyval :=
  PList (map item_value todo_list).

(** The strings of a record are Python strings. *)
Definition is_item (i : item) : Prop := is_str (content i) /\ is_str (status i).

(** No high surrogate of [s] is followed by a low one. *)
Fixpoint pair_free (s : pystr) : bool :=
  match s with
  | [] => true
  | h :: s' =>
    match s' with
    | [] => true
    | l :: _ => negb (is_high_surrogate h && is_low_surrogate l) && pair_free s'
    end
  end.

Definition pair_free_item (i : item) : bool :=
  pair_free (content i) && pair_free (status i).

(** The record the decoder makes of an encoded record. *)
Definition join_item (i : item) : item :=
  {| id := id i;
     content := join_surrogates (content i);
     status := join_surrogates (status i) |}.

(** The text of a record and of a list of records in the file. *)
Definition item_text (i : item) : pystr :=
  lit "{" ++ encode_basestring_ascii (lit "id") ++ lit ": " ++ intstr (id i)
  ++ lit ", " ++ encode_basestring_ascii (lit "content") ++ lit ": "
  ++ encode_basestring_ascii (content i)
  ++ lit ", " ++ encode_basestring_ascii (lit "status") ++ lit ": "
  ++ encode_basestring_ascii (status i) ++ lit "}".

Definition more_text (todo_list : list item) : pystr :=
  flat_map (fun j => lit ", " ++ item_text j) todo_list.

Definition todo_text (todo_list : list item) : pystr :=
  match todo_list with
  | [] => lit "[]"
  | i :: todo_list' => lit "[" ++ item_text i ++ more_text todo_list' ++ lit "]"
  end.

(** [open(file_name, 'w')] succeeds: the file is absent and can be created,
    or it is a regular file that may be written. *)
Definition writable_store (w : world) : Prop :=
  match files w !! file_name with
  | None => may_create w = true
  | Some (File _ writable _) => writable = true
  | Some Directory => False
  end.

(** Whether the file may be read once it has been opened for writing: a
    new file may, an old one keeps its permissions. *)
Definition readable_after (w : world) : bool :=
  match files w !! file_name with
  | Some (File readable _ _) => readable
  | _ => true
  end.

(** The world after a [save] that wrote the text [t]. *)
Definition saved (t : pystr) (w : world) : world :=
  set_files (<[file_name := File (readable_after w) true (Text t)]> (files w)) w.

(** Opening the file, writing to it or encoding the list fails with [e]. *)
Definition save_failure (todo_list : pyval) (w : world) (e : exn) : Prop :=
  let written :=
    if fits (room w) (concat (fst (json_chunks todo_list)))
    then snd (json_chunks todo_list) = Some e
    else e = NoSpaceLeftOnDevice in
  match files w !! file_name with
  | Some Directory => e = IsADirectoryError
  | Some (File _ false _) => e = PermissionError
  | Some (File _ true _) => written
  | None => if may_create w then written else e = PermissionError
  end.

(** Opening, reading or parsing the file fails with [e]. *)
Definition load_failure (w : world) (e : exn) : Prop :=
  match files w !! file_name with
  | None => e = FileNotFoundError
  | Some Directory => e = IsADirectoryError
  | Some (File false _ _) => e = PermissionError
  | Some (File true _ Undecodable) => e = UnicodeDecodeError
  | Some (File true _ (Text t)) => json_loads t = Raise e
  end.

(** The store can be written and read back: the file is absent and can be
    created, or it is a regular file that may be read and written. *)
Definition usable (w : world) : Prop :=
  match files w !! file_name with
  | None => may_create w = true
  | Some (File readable writable _) => readable = true /\ writable = true
  | Some Directory => False
  end.

(** ** Values without floating point numbers *)

(** A string of code points in which no high surrogate is followed by a
    low one. *)
Definition plain_str (s : pystr) : bool :=
  forallb (fun c => c <? 0x110000) s && pair_free s.

Definition has_key (key : pystr) (d : list (pyval * pyval)) : bool :=
  existsb (fun kv => is_key key (fst kv)) d.

(** The keys of a dictionary are such strings, each of them once. *)
Fixpoint distinct_keys (d : list (pyval * pyval)) : bool :=
  match d with
  | [] => true
  | (PStr key, _) :: d' =>
    plain_str key && negb (has_key key d') && distinct_keys d'
  | _ :: _ => false
  end.

(** [None], booleans, integers, such strings, and lists and dictionaries
    of them, nested less than [depth] times. *)
Fixpoint plain (depth : nat) (v : pyval) : bool :=
  match depth with
  | O => false
  | S depth' =>
    match v with
    | PNone | PBool _ | PInt _ => true
    | PStr s => plain_str s
    | PList l => forallb (plain depth') l
    | PDict d => distinct_keys d && forallb (fun kv => plain depth' (snd kv)) d
    | PFloat _ | PObj _ => false
    end
  end.

(** All that the encoder yields for [o], in one piece. *)
Definition text_at (depth : nat) (o : pyval) : pystr :=
  concat (fst (iterencode depth o)).

Definition key_str (key : pyval) : pystr :=
  match key with PStr s => s | _ => [] end.

(** The text of the elements of a list after the first, and of the members
    of a dictionary after the first. *)
Definition more_elements (text : pyval -> pystr) (l : list pyval) : pystr :=
  flat_map (fun v => lit ", " ++ text v) l.

Definition more_members (text : pyval -> pystr) (d : list (pyval * pyval)) : pystr :=
  flat_map (fun kv => lit ", " ++ encode_basestring_ascii (key_str (fst kv))
                      ++ lit ": " ++ text (snd kv)) d.

(** A text can be the start of a value: its first character is an ASCII
    character, no blank and no closing bracket. *)
Definition starts_value (t : pystr) : bool :=
  match t with
  | c :: _ => negb (is_ws c) && negb (c =? ord "]") && (c <? 128)
  | [] => false
  end.

(** The scanner reads the value [v] from its text [t], whatever follows
    that cannot go on a number. *)
Definition reads (scan : pystr -> outcome (pyval * pystr)) (v : pyval) (t : pystr)
  : Prop :=
  starts_value t = true /\
  forall rest, number_end rest = true -> scan (t ++ rest) = Return (v, rest).

(** A scanner consumes: what it leaves is shorter than what it was given. *)
Definition consuming (scan : pystr -> outcome (pyval * pystr)) : Prop :=
  forall s value rest, scan s = Return (value, rest) -> (length rest < length s)%nat.


(** The ASCII characters from the space to the tilde. *)
Definition printable (c : codepoint) : bool := (32 <=? c) && (c <=? 126).

(** A text of JSON whitespace only. *)
Definition blank (s : pystr) : bool := forallb is_ws s.

(** ** Examples *)

(** An empty directory on a device with room. *)
Definition empty_world : world :=
  {| files := ∅; may_create := true; room := None; opened := []; stdout := [] |}.

(** A directory in which [todo.json] holds [data]. *)
Definition world_with (data : contents) : world :=
  {| files := {[file_name := File true true data]}; may_create := true;
     room := None; opened := []; stdout := [] |}.

(** A directory in which [todo.json] is read-only. *)
Definition read_only_world : world :=
  {| files := {[file_name := File true false (Text (lit "[]"))]};
     may_create := true; room := None; opened := []; stdout := [] |}.

(** An empty directory on a device that takes three characters. *)
Definition small_world : world :=
  {| files := ∅; may_create := true; room := Some 3%nat; opened := []; stdout := [] |}.

Definition milk : item :=
  {| id := 1; content := lit "buy milk"; status := lit "open" |}.

Definition eggs : item :=
  {| id := 2; content := lit "buy eggs"; status := lit "done" |}.

(** A record whose content is a high surrogate followed by a low one. *)
Definition surrogates : item :=
  {| id := 1; content := [0xd83d; 0xde00]; status := lit "open" |}.

(** Floating point numbers for the examples: a number is kept as the
    numeral it was read from. *)
Definition numeral : Type := pystr.
Definition numeral_of (s : pystr) : numeral := s.
Definition numeral_str (x : numeral) : pystr := x.

(** A value that is no list of records: a dictionary with a list, a
    nested dictionary and a string with characters outside ASCII. *)
Definition settings : pyval :=
  PDict [(PStr (lit "order"), PList [PInt 3; PInt (-1); PNone; PBool true]);
         (PStr (lit "owner"), PDict [(PStr (lit "name"), PStr [0xe9; 0x1f600])]);
         (PStr (lit "tags"), PList [])].

(** The floating point numbers that [floatstr] prints by name, as a second
    small model of [float]. *)
Inductive special : Type := NaN | Infinity | NegInfinity.

Definition special_str (x : special) : pystr :=
  match x with
  | NaN => lit "NaN"
  | Infinity => lit "Infinity"
  | NegInfinity => lit "-Infinity"
  end.

(** * Properties *)

#[local] Set Default Proof Using "Type".

Ltac Zify.zify_post_hook ::= Z.to_euclidean_division_equations.

(** Arithmetic tactics take every variable of the context into the proof;
    the floating point parameters are set aside where a statement does not
    speak of them. *)
Ltac clear_floats :=
  repeat match goal with
         | f : _ -> pystr |- _ => clear f
         | f : pystr -> _ |- _ => clear f
         end.

(** ** Hexadecimal escapes *)

Lemma hex_value_hex_char d : d < 16 -> hex_value (hex_char d) = Some d.
Proof.
  intros H.
  destruct d as [|p]; [reflexivity|].
  repeat (destruct p as [p|p|]; try reflexivity; try lia).
Qed.

Lemma decode_u_escape n :
  n < 0x10000 ->
  decode_hex4 (hex_char (n / 4096 mod 16)) (hex_char (n / 256 mod 16))
              (hex_char (n / 16 mod 16)) (hex_char (n mod 16)) = Some n.
Proof.
  intros H. unfold decode_hex4.
  rewrite !hex_value_hex_char by (apply N.mod_lt; discriminate).
  f_equal. lia.
Qed.

(** ** Strings: what the decoder reads from what the encoder wrote *)

Lemma lor_add_low a b k : b < 2 ^ k -> N.lor (a * 2 ^ k) b = a * 2 ^ k + b.
Proof.
  intros Hb.
  assert (Hand : N.land (a * 2 ^ k) b = 0).
  { apply N.bits_inj. intros i. rewrite N.land_spec, N.bits_0.
    destruct (N.lt_ge_cases i k) as [Hi|Hi].
    - now rewrite N.mul_pow2_bits_low.
    - rewrite <- (N.mod_small b (2 ^ k)) by assumption.
      rewrite N.mod_pow2_bits_high by assumption. apply andb_false_r. }
  rewrite N.add_nocarry_lxor by assumption.
  symmetry. now apply N.lxor_lor.
Qed.

Lemma land_0x3ff x : N.land x 0x3ff = x mod 1024.
Proof. change 0x3ff with (N.ones 10). now rewrite N.land_ones. Qed.

Lemma high_of_codepoint c :
  0x10000 <= c < 0x110000 ->
  N.lor 0xd800 (N.land (N.shiftr (c - 0x10000) 10) 0x3ff)
  = 0xd800 + (c - 0x10000) / 1024.
Proof.
  intros Hc. rewrite land_0x3ff, N.shiftr_div_pow2.
  change (2 ^ 10) with 1024.
  rewrite (N.mod_small ((c - 0x10000) / 1024)) by lia.
  change 0xd800 with (54 * 2 ^ 10). apply lor_add_low.
  change (2 ^ 10) with 1024. lia.
Qed.

Lemma low_of_codepoint c :
  N.lor 0xdc00 (N.land (c - 0x10000) 0x3ff) = 0xdc00 + (c - 0x10000) mod 1024.
Proof.
  rewrite land_0x3ff. change 0xdc00 with (55 * 2 ^ 10). apply lor_add_low.
  change (2 ^ 10) with 1024. lia.
Qed.

Lemma join_pair_of_codepoint c :
  0x10000 <= c < 0x110000 ->
  join_pair (0xd800 + (c - 0x10000) / 1024) (0xdc00 + (c - 0x10000) mod 1024) = c.
Proof.
  intros Hc. unfold join_pair.
  replace (0xd800 + (c - 0x10000) / 1024 - 0xd800) with ((c - 0x10000) / 1024) by lia.
  replace (0xdc00 + (c - 0x10000) mod 1024 - 0xdc00) with ((c - 0x10000) mod 1024) by lia.
  rewrite N.shiftl_mul_pow2, lor_add_low; change (2 ^ 10) with 1024; lia.
Qed.

Lemma scanstring_u h1 h2 h3 h4 t :
  scanstring (backslash :: ord "u" :: h1 :: h2 :: h3 :: h4 :: t) =
  match decode_hex4 h1 h2 h3 h4 with
  | None => Raise (JSONDecodeError "Invalid \uXXXX escape")
  | Some uni =>
    if is_high_surrogate uni then
      match t with
      | b :: u :: s4 =>
        if (b =? backslash) && (u =? ord "u") then
          match s4 with
          | k1 :: k2 :: k3 :: k4 :: s5 =>
            match decode_hex4 k1 k2 k3 k4 with
            | None => Raise (JSONDecodeError "Invalid \uXXXX escape")
            | Some uni2 =>
              if is_low_surrogate uni2 then push (join_pair uni uni2) (scanstring s5)
              else push uni (scanstring t)
            end
          | _ => Raise (JSONDecodeError "Invalid \uXXXX escape")
          end
        else push uni (scanstring t)
      | _ => push uni (scanstring t)
      end
    else push uni (scanstring t)
  end.
Proof. reflexivity. Qed.

Lemma scanstring_u_escape n t :
  n < 0x10000 ->
  (is_high_surrogate n = true -> no_low_escape t) ->
  scanstring (u_escape n ++ t) = push n (scanstring t).
Proof.
  intros Hn Ht. unfold u_escape. cbn [app].
  rewrite scanstring_u, decode_u_escape by assumption.
  destruct (is_high_surrogate n); [|reflexivity].
  specialize (Ht eq_refl). unfold no_low_escape in Ht.
  destruct t as [|b [|u s4]]; try reflexivity.
  destruct ((b =? backslash) && (u =? ord "u")); [|reflexivity].
  destruct s4 as [|k1 [|k2 [|k3 [|k4 s5]]]]; try contradiction.
  destruct Ht as (uni2 & -> & ->). reflexivity.
Qed.

Lemma scanstring_u_pair h l t :
  h < 0x10000 -> l < 0x10000 ->
  is_high_surrogate h = true -> is_low_surrogate l = true ->
  scanstring (u_escape h ++ u_escape l ++ t) = push (join_pair h l) (scanstring t).
Proof.
  intros Hh Hl Hhigh Hlow. unfold u_escape. cbn [app].
  rewrite scanstring_u, decode_u_escape, Hhigh by assumption.
  change ((backslash =? backslash) && (ord "u" =? ord "u")) with true. cbv iota.
  now rewrite decode_u_escape, Hlow by assumption.
Qed.

Lemma surrogate_bounds c :
  (is_high_surrogate c = true -> 0xd800 <= c <= 0xdbff) /\
  (is_low_surrogate c = true -> 0xdc00 <= c <= 0xdfff).
Proof. unfold is_high_surrogate, is_low_surrogate. lia. Qed.

Lemma escape_char_surrogate c :
  0xd800 <= c <= 0xdfff -> escape_char c = u_escape c.
Proof.
  intros Hc. unfold escape_char, needs_escape, replace, backslash, quote.
  repeat match goal with
         | |- context [?a =? ?b] => destruct (N.eqb_spec a b); [lia|]
         end.
  destruct (N.leb_spec c 126); [lia|].
  destruct (N.ltb_spec c 0x10000); [|lia].
  now rewrite andb_false_r.
Qed.

Lemma scanstring_escape_char c t :
  is_codepoint c ->
  (is_high_surrogate c = true -> no_low_escape t) ->
  scanstring (escape_char c ++ t) = push c (scanstring t).
Proof.
  clear_floats.
  unfold is_codepoint. intros Hc Ht. unfold escape_char, needs_escape.
  destruct (N.eqb_spec c backslash) as [->|Hb]; [reflexivity|].
  destruct (N.eqb_spec c quote) as [->|Hq]; [reflexivity|].
  cbn [orb]. destruct (N.leb_spec 32 c) as [H32|H32]; cbn [andb negb].
  - destruct (N.leb_spec c 126) as [H126|H126]; cbn [negb].
    + cbn [app scanstring].
      destruct (N.eqb_spec c quote); [contradiction|].
      destruct (N.eqb_spec c backslash); [contradiction|].
      destruct (N.ltb_spec c 32); [lia|]. reflexivity.
    + unfold replace, backslash, quote in *.
      repeat match goal with
             | |- context [?a =? ?b] => destruct (N.eqb_spec a b); [lia|]
             end.
      destruct (N.ltb_spec c 0x10000) as [Hlt|Hge].
      * now apply scanstring_u_escape.
      * cbv zeta. rewrite high_of_codepoint, low_of_codepoint by lia.
        rewrite <- app_assoc, scanstring_u_pair, join_pair_of_codepoint;
          try reflexivity; try lia;
          unfold is_high_surrogate, is_low_surrogate; lia.
  - unfold replace, backslash, quote in *.
    repeat match goal with
           | |- context [?a =? ?b] =>
             destruct (N.eqb_spec a b) as [->|?]; [reflexivity|]
           end.
    destruct (N.ltb_spec c 0x10000) as [Hlt|Hge]; [|lia].
    apply scanstring_u_escape; [assumption|].
    unfold is_high_surrogate. lia.
Qed.

Lemma no_low_escape_quote rest : no_low_escape (quote :: rest).
Proof. destruct rest; exact I. Qed.

Lemma no_low_escape_escape_char c t :
  is_codepoint c -> is_low_surrogate c = false -> no_low_escape (escape_char c ++ t).
Proof.
  clear_floats.
  unfold is_codepoint. intros Hc Hlow. unfold escape_char, needs_escape.
  destruct (N.eqb_spec c backslash) as [->|Hb]; [exact I|].
  destruct (N.eqb_spec c quote) as [->|Hq]; [exact I|].
  cbn [orb].
  assert (Hu : forall n, n < 0x10000 -> is_low_surrogate n = false ->
                         no_low_escape (u_escape n ++ t)).
  { intros n Hn Hnl. unfold u_escape, no_low_escape. cbn [app].
    change ((backslash =? backslash) && (ord "u" =? ord "u")) with true. cbv iota.
    exists n. split; [now apply decode_u_escape | assumption]. }
  destruct (N.leb_spec 32 c) as [H32|H32]; cbn [andb negb].
  - destruct (N.leb_spec c 126) as [H126|H126]; cbn [negb].
    + cbn [app]. unfold no_low_escape. destruct t; [exact I|].
      destruct (N.eqb_spec c backslash); [contradiction|exact I].
    + unfold replace, backslash, quote in *.
      repeat match goal with
             | |- context [?a =? ?b] => destruct (N.eqb_spec a b); [lia|]
             end.
      destruct (N.ltb_spec c 0x10000) as [Hlt|Hge]; [now apply Hu|].
      cbv zeta. rewrite high_of_codepoint by lia. rewrite <- app_assoc.
      apply Hu; [lia|]. unfold is_low_surrogate. lia.
  - unfold replace, backslash, quote in *.
    repeat match goal with
           | |- context [?a =? ?b] =>
             destruct (N.eqb_spec a b) as [->|?]; [exact I|]
           end.
    destruct (N.ltb_spec c 0x10000) as [Hlt|Hge]; [|lia].
    now apply Hu.
Qed.

Lemma join_surrogates_cons c s :
  (is_high_surrogate c = true ->
   match s with l :: _ => is_low_surrogate l = false | [] => True end) ->
  join_surrogates (c :: s) = c :: join_surrogates s.
Proof.
  intros H. destruct s as [|l s'']; [reflexivity|]. cbn [join_surrogates].
  destruct (is_high_surrogate c); [|reflexivity].
  now rewrite H.
Qed.

(** The decoder reads an encoded string to its closing quote and joins the
    surrogate pairs in it. *)
Lemma scanstring_encoded s rest :
  is_str s ->
  scanstring (flat_map escape_char s ++ quote :: rest)
  = Return (join_surrogates s, rest).
Proof.
  clear_floats.
  remember (length s) as n eqn:Hn. revert s rest Hn.
  induction n as [n IH] using lt_wf_ind. intros s rest Hn Hs.
  destruct s as [|c s']; [reflexivity|].
  apply Forall_cons_1 in Hs as [Hc Hs']. cbn [length] in Hn.
  destruct s' as [|l s''].
  - cbn [flat_map]. rewrite app_nil_r.
    rewrite scanstring_escape_char by (auto using no_low_escape_quote).
    reflexivity.
  - apply Forall_cons_1 in Hs' as Hs''. destruct Hs'' as [Hl Hs''].
    destruct (is_high_surrogate c && is_low_surrogate l) eqn:Hpair.
    + apply andb_prop in Hpair as [Hhigh Hlow].
      pose proof (proj1 (surrogate_bounds c) Hhigh).
      pose proof (proj2 (surrogate_bounds l) Hlow).
      cbn [flat_map join_surrogates]. rewrite Hhigh, Hlow. cbn [andb].
      rewrite !escape_char_surrogate by lia. rewrite <- !app_assoc.
      rewrite scanstring_u_pair by (assumption || lia).
      rewrite (IH (length s'')) by (cbn [length] in *; auto; lia).
      reflexivity.
    + change (flat_map escape_char (c :: l :: s''))
        with (escape_char c ++ flat_map escape_char (l :: s'')).
      rewrite <- app_assoc, scanstring_escape_char; [| assumption |].
      * rewrite (IH (length (l :: s''))) by (cbn [length] in *; auto; lia).
        rewrite (join_surrogates_cons c); [reflexivity|].
        intros Hhigh. rewrite Hhigh in Hpair. exact Hpair.
      * intros Hhigh. rewrite Hhigh in Hpair. cbn [andb] in Hpair.
        cbn [flat_map]. rewrite <- app_assoc.
        now apply no_low_escape_escape_char.
Qed.

(** ** Integers: what the decoder reads from what the encoder wrote *)

Lemma chars_uint_uint_chars u : chars_uint (uint_chars u) = u.
Proof. induction u; simpl; congruence. Qed.

Lemma span_digits_cons d t :
  is_digit d = true ->
  span_digits (d :: t) = (d :: fst (span_digits t), snd (span_digits t)).
Proof. intros Hd. cbn [span_digits]. rewrite Hd. now destruct (span_digits t). Qed.

Lemma span_digits_uint_chars u rest :
  number_end rest = true ->
  span_digits (uint_chars u ++ rest) = (uint_chars u, rest).
Proof.
  intros Hrest.
  induction u; cbn [uint_chars app];
    try (rewrite span_digits_cons, IHu by reflexivity; reflexivity).
  destruct rest as [|c rest']; [reflexivity|].
  unfold number_end in Hrest. cbn [span_digits].
  destruct (is_digit c); [discriminate Hrest|reflexivity].
Qed.

Lemma to_uint_nzhead p : nzhead (Pos.to_uint p) = Pos.to_uint p.
Proof.
  assert (Hu : unorm (Pos.to_uint p) = Pos.to_uint p).
  { rewrite <- DecimalPos.Unsigned.to_of, DecimalPos.Unsigned.of_to. reflexivity. }
  rewrite <- Hu at 2. symmetry. apply unorm_nzhead.
  intros Hnil. apply unorm_0 in Hnil. rewrite Hu in Hnil.
  now apply (DecimalPos.Unsigned.to_uint_nonzero p).
Qed.

(** The digits of a positive number: the first is not a zero. *)
Lemma uint_chars_to_uint p :
  exists d u, uint_chars (Pos.to_uint p) = d :: uint_chars u /\
              is_digit d = true /\ d <> ord "0" /\ d <> ord "-".
Proof.
  pose proof (to_uint_nzhead p) as Hnz.
  pose proof (DecimalPos.Unsigned.to_uint_nonnil p) as Hnil.
  destruct (Pos.to_uint p) as [|u|u|u|u|u|u|u|u|u|u] eqn:Hu;
    [contradiction | now destruct (nzhead_nonzero (D0 u) u) | ..];
    eexists _, u; (split; [reflexivity|]); repeat split; discriminate.
Qed.

Lemma match_integer_positive p sign rest :
  number_end rest = true ->
  match uint_chars (Pos.to_uint p) ++ rest with
  | d :: s2 =>
    if d =? ord "0" then Some (sign ++ [d], s2)
    else if is_digit d then
      let (ds, s3) := span_digits s2 in Some (sign ++ d :: ds, s3)
    else None
  | [] => None
  end = Some (sign ++ uint_chars (Pos.to_uint p), rest).
Proof.
  intros Hrest. destruct (uint_chars_to_uint p) as (d & u & -> & Hd & Hd0 & _).
  cbn [app]. destruct (N.eqb_spec d (ord "0")); [contradiction|].
  now rewrite Hd, span_digits_uint_chars.
Qed.

Lemma match_integer_intstr z rest :
  number_end rest = true ->
  match_integer (intstr z ++ rest) = Some (intstr z, rest).
Proof.
  intros Hrest. unfold match_integer, intstr.
  destruct z as [|p|p]; cbn [Z.to_int app].
  - reflexivity.
  - destruct (uint_chars_to_uint p) as (d & u & Hp & Hd & Hd0 & Hminus).
    assert (Hsign : match_sign [ord "-"] (uint_chars (Pos.to_uint p) ++ rest)
                    = ([], uint_chars (Pos.to_uint p) ++ rest)).
    { rewrite Hp. cbn [app match_sign existsb].
      destruct (N.eqb_spec d (ord "-")); [contradiction|reflexivity]. }
    rewrite Hsign. now apply (match_integer_positive p []).
  - change (match_sign [ord "-"] (ord "-" :: uint_chars (Pos.to_uint p) ++ rest))
      with ([ord "-"], uint_chars (Pos.to_uint p) ++ rest).
    now apply (match_integer_positive p [ord "-"]).
Qed.

Lemma match_number_intstr z rest :
  number_end rest = true ->
  match_number (intstr z ++ rest) = Some (intstr z, None, None, rest).
Proof.
  intros Hrest. unfold match_number. rewrite match_integer_intstr by assumption.
  destruct rest as [|c rest']; [reflexivity|].
  unfold number_end in Hrest. unfold match_frac, match_exp.
  destruct (is_digit c); [discriminate Hrest|].
  destruct (c =? ord "."); [discriminate Hrest|].
  destruct (c =? ord "e"); [discriminate Hrest|].
  destruct (c =? ord "E"); [discriminate Hrest|]. reflexivity.
Qed.

Lemma int_of_str_intstr z : int_of_str (intstr z) = z.
Proof.
  rewrite <- (DecimalZ.of_to z) at 2. unfold int_of_str, intstr.
  destruct z as [|p|p]; cbn [Z.to_int].
  - reflexivity.
  - destruct (uint_chars_to_uint p) as (d & u & Hp & _ & _ & Hminus).
    rewrite <- (chars_uint_uint_chars (Pos.to_uint p)) at 2. rewrite Hp.
    destruct (N.eqb_spec d (ord "-")); [contradiction|reflexivity].
  - change (ord "-" =? ord "-") with true. cbv iota.
    now rewrite chars_uint_uint_chars.
Qed.

(** The first character of an integer is a minus sign or a digit. *)
Lemma intstr_head z :
  exists c t, intstr z = c :: t /\ (c = ord "-" \/ is_digit c = true).
Proof.
  unfold intstr. destruct z as [|p|p]; cbn [Z.to_int].
  - eexists _, _. split; [reflexivity|]. now right.
  - destruct (uint_chars_to_uint p) as (d & u & -> & Hd & _).
    eexists _, _. split; [reflexivity|]. now right.
  - eexists _, _. split; [reflexivity|]. now left.
Qed.

Lemma scan_number_intstr z rest :
  number_end rest = true ->
  scan_number (intstr z ++ rest) = Return (PInt z, rest).
Proof.
  intros Hrest. unfold scan_number.
  now rewrite match_number_intstr, int_of_str_intstr.
Qed.

Lemma scan_once_intstr depth z rest :
  number_end rest = true ->
  scan_once (S depth) (intstr z ++ rest) = Return (PInt z, rest).
Proof.
  clear_floats.
  intros Hrest. rewrite <- (scan_number_intstr z rest Hrest).
  destruct (intstr_head z) as (c & t & -> & Hc).
  cbn [app scan_once].
  assert (Hnot : (c =? quote) = false /\ (c =? ord "{") = false /\
                 (c =? ord "[") = false /\ (c =? ord "n") = false /\
                 (c =? ord "t") = false /\ (c =? ord "f") = false).
  { destruct Hc as [->|Hc]; [now repeat split|].
    unfold is_digit, quote in *. cbn. lia. }
  destruct Hnot as (-> & -> & -> & Hn & Ht & Hf).
  cbn [strip_prefix lit list_ascii_of_string map].
  rewrite N.eqb_sym, Hn, (N.eqb_sym _ c), Ht, (N.eqb_sym _ c), Hf.
  reflexivity.
Qed.

(** ** Records: what the decoder reads from what the encoder wrote *)

Lemma pair_free_join s : pair_free s = true -> join_surrogates s = s.
Proof.
  induction s as [|h s' IH]; [reflexivity|].
  destruct s' as [|l s'']; [reflexivity|].
  cbn [pair_free join_surrogates]. intros H.
  apply andb_prop in H as [Hp Hs]. apply negb_true_iff in Hp.
  rewrite Hp. f_equal. now apply IH.
Qed.

Lemma join_item_pair_free i : pair_free_item i = true -> join_item i = i.
Proof.
  unfold pair_free_item, join_item. intros H. apply andb_prop in H as [Hc Hs].
  rewrite !pair_free_join by assumption. now destruct i.
Qed.

Lemma item_text_eq i rest :
  item_text i ++ rest =
  ord "{" :: quote :: flat_map escape_char (lit "id") ++ quote
  :: ord ":" :: ord " " :: intstr (id i) ++ ord "," :: ord " "
  :: quote :: flat_map escape_char (lit "content") ++ quote
  :: ord ":" :: ord " " :: quote :: flat_map escape_char (content i) ++ quote
  :: ord "," :: ord " "
  :: quote :: flat_map escape_char (lit "status") ++ quote
  :: ord ":" :: ord " " :: quote :: flat_map escape_char (status i) ++ quote
  :: ord "}" :: rest.
Proof.
  unfold item_text, encode_basestring_ascii.
  repeat (rewrite <- ?app_assoc; cbn [app lit map list_ascii_of_string]).
  reflexivity.
Qed.

Lemma scan_once_string depth s rest :
  is_str s ->
  scan_once (S depth) (quote :: flat_map escape_char s ++ quote :: rest)
  = Return (PStr (join_surrogates s), rest).
Proof.
  intros Hs. cbn [scan_once].
  change (quote =? quote) with true. cbv iota.
  now rewrite scanstring_encoded.
Qed.

Lemma skip_ws_intstr z rest : skip_ws (intstr z ++ rest) = intstr z ++ rest.
Proof.
  clear_floats.
  destruct (intstr_head z) as (c & t & -> & Hc). cbn [app skip_ws].
  replace (is_ws c) with false; [reflexivity|].
  destruct Hc as [->|Hc]; [reflexivity|].
  unfold is_digit, is_ws in *. lia.
Qed.

Lemma is_str_lit s : is_str (lit s).
Proof.
  unfold is_str, lit. apply List.Forall_forall. intros c Hc.
  apply in_map_iff in Hc as (a & <- & _). unfold is_codepoint, ord.
  pose proof (N_ascii_bounded a). lia.
Qed.

Lemma object_loop_eq scan fuel pairs s :
  object_loop scan fuel pairs s =
  match scanstring s with
  | Raise e => Raise e
  | Return (key, s1) =>
    match skip_ws s1 with
    | [] => Raise (JSONDecodeError "Expecting ':' delimiter")
    | colon :: s2 =>
      if negb (colon =? ord ":") then
        Raise (JSONDecodeError "Expecting ':' delimiter")
      else
        match expecting_value (scan (skip_ws s2)) with
        | Raise e => Raise e
        | Return (value, s3) =>
          let pairs := pairs ++ [(key, value)] in
          match skip_ws s3 with
          | [] => Raise (JSONDecodeError "Expecting ',' delimiter")
          | nextchar :: s4 =>
            if nextchar =? ord "}" then Return (PDict (dict_of_pairs pairs), s4)
            else if negb (nextchar =? ord ",") then
              Raise (JSONDecodeError "Expecting ',' delimiter")
            else
              match skip_ws s4 with
              | [] =>
                Raise (JSONDecodeError
                         "Expecting property name enclosed in double quotes")
              | q :: s5 =>
                if negb (q =? quote) then
                  Raise (JSONDecodeError
                           "Expecting property name enclosed in double quotes")
                else
                  match fuel with
                  | S fuel' => object_loop scan fuel' pairs s5
                  | O => Raise (JSONDecodeError "Expecting value")
                  end
              end
          end
        end
    end
  end.
Proof. destruct fuel; reflexivity. Qed.

Lemma skip_ws_space s : skip_ws (ord " " :: s) = skip_ws s.
Proof. reflexivity. Qed.

Lemma skip_ws_stop c s : is_ws c = false -> skip_ws (c :: s) = c :: s.
Proof. intros H. cbn [skip_ws]. now rewrite H. Qed.

(** Comparisons of two given characters are computed. *)
Ltac eval_eqb :=
  match goal with
  | |- context [?a =? ?b] =>
    let v := eval vm_compute in (a =? b) in
    match v with
    | true => change (a =? b) with true
    | false => change (a =? b) with false
    end
  end.

Ltac scan_step :=
  repeat first
    [ rewrite skip_ws_space
    | rewrite skip_ws_intstr
    | rewrite skip_ws_stop by reflexivity
    | eval_eqb
    | progress cbn [negb andb orb expecting_value app]
    | progress cbv iota ].

(** A scanner that reads integers and strings reads a record. *)
Lemma JSONObject_item scan i rest :
  (forall z r, number_end r = true -> scan (intstr z ++ r) = Return (PInt z, r)) ->
  (forall s r, is_str s ->
     scan (quote :: flat_map escape_char s ++ quote :: r)
     = Return (PStr (join_surrogates s), r)) ->
  is_item i ->
  exists t, item_text i ++ rest = ord "{" :: t /\
            JSONObject scan t = Return (item_value (join_item i), rest).
Proof.
  intros Hint Hstr [Hc Hs]. rewrite item_text_eq. eexists. split; [reflexivity|].
  unfold JSONObject. scan_step. cbn [length].
  lazymatch goal with
  | |- context [object_loop scan (S (length ?t))] =>
    destruct (length t) as [|fuel] eqn:Hlen; [discriminate Hlen|]
  end.
  rewrite object_loop_eq, scanstring_encoded by apply is_str_lit. scan_step.
  rewrite Hint by reflexivity. scan_step.
  rewrite object_loop_eq, scanstring_encoded by apply is_str_lit. scan_step.
  rewrite Hstr by assumption. scan_step.
  rewrite object_loop_eq, scanstring_encoded by apply is_str_lit. scan_step.
  rewrite Hstr by assumption. scan_step.
  reflexivity.
Qed.

Lemma scan_once_item depth i rest :
  is_item i ->
  scan_once (S (S depth)) (item_text i ++ rest)
  = Return (item_value (join_item i), rest).
Proof.
  intros Hi.
  destruct (JSONObject_item (scan_once (S depth)) i rest) as (t & Ht & Hobj);
    [apply scan_once_intstr | apply scan_once_string | assumption |].
  rewrite Ht. cbn [scan_once]. scan_step. exact Hobj.
Qed.

(** ** Lists of records *)

Lemma array_loop_eq scan fuel values s :
  array_loop scan fuel values s =
  match expecting_value (scan s) with
  | Raise e => Raise e
  | Return (value, s1) =>
    let values := values ++ [value] in
    match skip_ws s1 with
    | [] => Raise (JSONDecodeError "Expecting ',' delimiter")
    | nextchar :: s2 =>
      if nextchar =? ord "]" then Return (PList values, s2)
      else if negb (nextchar =? ord ",") then
        Raise (JSONDecodeError "Expecting ',' delimiter")
      else
        match fuel with
        | S fuel' => array_loop scan fuel' values (skip_ws s2)
        | O => Raise (JSONDecodeError "Expecting value")
        end
    end
  end.
Proof. destruct fuel; reflexivity. Qed.

Lemma skip_ws_item i rest : skip_ws (item_text i ++ rest) = item_text i ++ rest.
Proof. rewrite item_text_eq. now apply skip_ws_stop. Qed.

Lemma length_more_text l : (length l <= length (more_text l))%nat.
Proof.
  induction l as [|j l IH]; [reflexivity|].
  unfold more_text in *. cbn [flat_map length]. rewrite !length_app.
  change (length (lit ", ")) with 2%nat. lia.
Qed.

(** A scanner that reads records reads them one after the other, up to
    the closing bracket. *)
Lemma array_loop_items scan l :
  (forall i r, is_item i -> scan (item_text i ++ r) = Return (item_value (join_item i), r)) ->
  forall i values fuel rest,
    (length l <= fuel)%nat ->
    Forall is_item (i :: l) ->
    array_loop scan fuel values (item_text i ++ more_text l ++ lit "]" ++ rest)
    = Return (PList (values ++ map item_value (map join_item (i :: l))), rest).
Proof.
  clear_floats.
  intros Hscan. induction l as [|j l IH]; intros i values fuel rest Hfuel Hl;
    apply Forall_cons_1 in Hl as [Hi Hl];
    rewrite array_loop_eq, Hscan by assumption; cbn [expecting_value].
  - cbn [more_text flat_map app lit map list_ascii_of_string]. scan_step.
    reflexivity.
  - unfold more_text. cbn [flat_map]. fold (more_text l).
    rewrite <- !app_assoc. cbn [app lit map list_ascii_of_string length] in *.
    scan_step. destruct fuel as [|fuel]; [lia|].
    rewrite skip_ws_item, IH by (assumption || lia).
    cbn [map]. now rewrite <- app_assoc.
Qed.

Lemma todo_text_eq i l rest :
  todo_text (i :: l) ++ rest
  = ord "[" :: item_text i ++ more_text l ++ lit "]" ++ rest.
Proof.
  unfold todo_text, more_text. rewrite <- !app_assoc. reflexivity.
Qed.

(** The decoder reads the text of a list of records, joining the
    surrogate pairs in their strings. *)
Lemma scan_once_todo depth l rest :
  Forall is_item l ->
  scan_once (S (S (S depth))) (todo_text l ++ rest)
  = Return (todo_value (map join_item l), rest).
Proof.
  clear_floats.
  intros Hl. destruct l as [|i l]; [reflexivity|].
  rewrite todo_text_eq. cbn [scan_once]. scan_step.
  unfold JSONArray. rewrite skip_ws_item.
  destruct (item_text i ++ more_text l ++ lit "]" ++ rest) as [|c t] eqn:Ht.
  { rewrite item_text_eq in Ht. discriminate Ht. }
  rewrite <- Ht.
  replace (c =? ord "]") with false
    by (rewrite item_text_eq in Ht; now injection Ht as <- _).
  rewrite (array_loop_items _ l (fun i r => scan_once_item depth i r)); try assumption.
  - reflexivity.
  - rewrite !length_app. pose proof (length_more_text l). lia.
Qed.

Lemma json_loads_todo_text l :
  Forall is_item l ->
  json_loads (todo_text l) = Return (todo_value (map join_item l)).
Proof.
  intros Hl. unfold json_loads.
  assert (Hhead : exists t, todo_text l = ord "[" :: t).
  { destruct l; eexists; reflexivity. }
  destruct Hhead as (t & Ht).
  assert (Hws : skip_ws (todo_text l) = todo_text l).
  { rewrite Ht. now apply skip_ws_stop. }
  rewrite Hws. rewrite Ht at 1. cbn [strip_prefix]. scan_step.
  rewrite <- (app_nil_r (todo_text l)).
  change recursion_limit with (S (S (S 997))).
  now rewrite scan_once_todo.
Qed.

(** ** The loops of the decoder end before their counters do *)

Lemma skip_ws_length s : (length (skip_ws s) <= length s)%nat.
Proof.
  clear_floats.
  induction s as [|c s IH]; [reflexivity|]. cbn [skip_ws].
  destruct (is_ws c); cbn [length]; lia.
Qed.

Lemma push_Return {A} c (r : outcome (pystr * A)) str rest :
  push c r = Return (str, rest) -> exists str', r = Return (str', rest).
Proof.
  destruct r as [[str' rest']|e]; [|discriminate].
  cbn [push obind]. intros [= _ <-]. now exists str'.
Qed.

Lemma scanstring_consumes s str rest :
  scanstring s = Return (str, rest) -> (length rest < length s)%nat.
Proof.
  clear_floats.
  remember (length s) as n eqn:Hn. revert s str rest Hn.
  induction n as [n IH] using lt_wf_ind. intros s str rest Hn H.
  destruct s as [|c s1]; [discriminate H|]. cbn [scanstring] in H.
  repeat (match type of H with
          | context [if ?b then _ else _] => destruct b
          | context [match ?x with [] => _ | _ :: _ => _ end] => destruct x
          | context [match ?x with Some _ => _ | None => _ end] => destruct x
          end; try discriminate H);
    try (injection H as _ <-; subst n; cbn [length]; lia);
    apply push_Return in H as (str' & H);
    (eapply IH in H; [| | reflexivity]); subst n; cbn [length] in *; lia.
Qed.

Lemma strip_prefix_length prefix : forall s rest,
  strip_prefix prefix s = Some rest ->
  length s = (length prefix + length rest)%nat.
Proof.
  clear_floats.
  induction prefix as [|p prefix IH]; intros s rest H.
  - now injection H as ->.
  - destruct s as [|c s]; [discriminate H|]. cbn [strip_prefix] in H.
    destruct (p =? c); [|discriminate H]. cbn [length]. now rewrite (IH _ _ H).
Qed.

Lemma span_digits_length s : (length (snd (span_digits s)) <= length s)%nat.
Proof.
  clear_floats.
  induction s as [|c s IH]; [reflexivity|]. cbn [span_digits].
  destruct (is_digit c); [|reflexivity].
  destruct (span_digits s). cbn [snd length] in *. lia.
Qed.

Lemma match_sign_length signs s :
  (length (snd (match_sign signs s)) <= length s)%nat.
Proof.
  clear_floats.
  destruct s as [|c s]; [reflexivity|]. cbn [match_sign].
  destruct (existsb (N.eqb c) signs); cbn [snd length]; lia.
Qed.

Lemma match_number_consumes s integer frac exp rest :
  match_number s = Some (integer, frac, exp, rest) ->
  (length rest < length s)%nat.
Proof.
  clear_floats.
  unfold match_number.
  assert (Hint : forall i r, match_integer s = Some (i, r) ->
                             (length r < length s)%nat).
  { intros i r. unfold match_integer.
    pose proof (match_sign_length [ord "-"] s) as Hsign.
    destruct (match_sign [ord "-"] s) as [sign s1]. cbn [snd] in Hsign.
    destruct s1 as [|d s2]; [discriminate|].
    destruct (d =? ord "0"); [intros [= _ <-]; cbn [length] in *; lia|].
    destruct (is_digit d); [|discriminate].
    pose proof (span_digits_length s2) as Hspan.
    destruct (span_digits s2) as [ds s3]. intros [= _ <-].
    cbn [snd length] in *. lia. }
  assert (Hfrac : forall t f r, match_frac t = Some (f, r) ->
                                (length r <= length t)%nat).
  { intros t f r. unfold match_frac. destruct t as [|c t1]; [discriminate|].
    destruct (c =? ord "."); [|discriminate].
    pose proof (span_digits_length t1) as Hspan.
    destruct (span_digits t1) as [[|d ds] t2]; [discriminate|].
    intros [= _ <-]. cbn [snd length] in *. lia. }
  assert (Hexp : forall t x r, match_exp t = Some (x, r) ->
                               (length r <= length t)%nat).
  { intros t x r. unfold match_exp. destruct t as [|c t1]; [discriminate|].
    destruct ((c =? ord "e") || (c =? ord "E")); [|discriminate].
    pose proof (match_sign_length [ord "-"; ord "+"] t1) as Hsign.
    destruct (match_sign [ord "-"; ord "+"] t1) as [sign t2].
    pose proof (span_digits_length t2) as Hspan.
    destruct (span_digits t2) as [[|d ds] t3]; [discriminate|].
    intros [= _ <-]. cbn [snd length] in *. lia. }
  destruct (match_integer s) as [[i s1]|]; [|discriminate].
  specialize (Hint i s1 eq_refl).
  destruct (match_frac s1) as [[f s2]|] eqn:Hf;
    [apply Hfrac in Hf|];
    (destruct (match_exp _) as [[x s3]|] eqn:Hx; [apply Hexp in Hx|]);
    intros [= _ _ _ <-]; lia.
Qed.

Lemma scan_number_consumes : consuming scan_number.
Proof.
  clear_floats.
  intros s value rest. unfold scan_number.
  destruct (match_number s) as [[[[integer frac] exp] r]|] eqn:Hm.
  - apply match_number_consumes in Hm.
    destruct frac, exp; intros [= _ <-]; exact Hm.
  - repeat (match goal with
            | |- context [strip_prefix ?p s] =>
              let H := fresh "Hp" in
              destruct (strip_prefix p s) eqn:H;
              [apply strip_prefix_length in H; intros [= _ <-];
               rewrite H; cbn; lia|]
            end).
    discriminate.
Qed.

Lemma expecting_value_Return {A} (r : outcome A) a :
  expecting_value r = Return a -> r = Return a.
Proof. destruct r as [|[]]; cbn; congruence. Qed.

(** The loop of [JSONArray] consumes, and a counter that is not below the
    length of the text never stops it. *)
Lemma array_loop_consumes scan :
  consuming scan ->
  forall fuel values s value rest,
    array_loop scan fuel values s = Return (value, rest) ->
    (length rest < length s)%nat.
Proof.
  clear_floats.
  intros Hscan. induction fuel as [|fuel IH]; intros values s value rest;
    rewrite array_loop_eq;
    (destruct (expecting_value (scan s)) as [[v s1]|e] eqn:Hv; [|discriminate]);
    apply expecting_value_Return, Hscan in Hv;
    pose proof (skip_ws_length s1) as Hws;
    (destruct (skip_ws s1) as [|nextchar s2]; [discriminate|]);
    cbn [length] in Hws;
    (destruct (nextchar =? ord "]"); [intros [= _ <-]; lia|]);
    (destruct (negb (nextchar =? ord ",")); [discriminate|]).
  - discriminate.
  - intros H. apply IH in H. pose proof (skip_ws_length s2). lia.
Qed.

Lemma array_loop_fuel scan :
  consuming scan ->
  forall fuel values s,
    (length s <= fuel)%nat ->
    array_loop scan fuel values s = array_loop scan (length s) values s.
Proof.
  clear_floats.
  intros Hscan.
  assert (Hstep : forall fuel values s,
    (length s <= fuel)%nat ->
    array_loop scan (S fuel) values s = array_loop scan fuel values s).
  { induction fuel as [|fuel IH]; intros values s Hlen;
      rewrite (array_loop_eq scan (S _)), (array_loop_eq scan _ values s);
      (destruct (expecting_value (scan s)) as [[v s1]|e] eqn:Hv; [|reflexivity]);
      apply expecting_value_Return, Hscan in Hv;
      pose proof (skip_ws_length s1) as Hws;
      (destruct (skip_ws s1) as [|nextchar s2]; [reflexivity|]);
      cbn [length] in Hws;
      (destruct (nextchar =? ord "]"); [reflexivity|]);
      (destruct (negb (nextchar =? ord ",")); [reflexivity|]).
    - lia.
    - apply IH. pose proof (skip_ws_length s2). lia. }
  intros fuel values s Hlen.
  induction Hlen as [|fuel Hlen IH]; [reflexivity|].
  now rewrite Hstep.
Qed.

(** The same for the loop of [JSONObject]. *)
Lemma object_loop_consumes scan :
  consuming scan ->
  forall fuel pairs s value rest,
    object_loop scan fuel pairs s = Return (value, rest) ->
    (length rest < length s)%nat.
Proof.
  clear_floats.
  intros Hscan. induction fuel as [|fuel IH]; intros pairs s value rest;
    rewrite object_loop_eq;
    (destruct (scanstring s) as [[key s1]|e] eqn:Hkey; [|discriminate]);
    apply scanstring_consumes in Hkey;
    pose proof (skip_ws_length s1) as Hws1;
    (destruct (skip_ws s1) as [|colon s2]; [discriminate|]);
    cbn [length] in Hws1;
    (destruct (negb (colon =? ord ":")); [discriminate|]);
    pose proof (skip_ws_length s2) as Hws2;
    (destruct (expecting_value (scan (skip_ws s2))) as [[v s3]|e] eqn:Hv;
     [|discriminate]);
    apply expecting_value_Return, Hscan in Hv;
    pose proof (skip_ws_length s3) as Hws3;
    (destruct (skip_ws s3) as [|nextchar s4]; [discriminate|]);
    cbn [length] in Hws3;
    (destruct (nextchar =? ord "}"); [intros [= _ <-]; lia|]);
    (destruct (negb (nextchar =? ord ",")); [discriminate|]);
    pose proof (skip_ws_length s4) as Hws4;
    (destruct (skip_ws s4) as [|q s5]; [discriminate|]);
    cbn [length] in Hws4;
    (destruct (negb (q =? quote)); [discriminate|]).
  - discriminate.
  - intros H. apply IH in H. lia.
Qed.

Lemma object_loop_fuel scan :
  consuming scan ->
  forall fuel pairs s,
    (length s <= fuel)%nat ->
    object_loop scan fuel pairs s = object_loop scan (length s) pairs s.
Proof.
  clear_floats.
  intros Hscan.
  assert (Hstep : forall fuel pairs s,
    (length s <= fuel)%nat ->
    object_loop scan (S fuel) pairs s = object_loop scan fuel pairs s).
  { induction fuel as [|fuel IH]; intros pairs s Hlen;
      rewrite (object_loop_eq scan (S _)), (object_loop_eq scan _ pairs s);
      (destruct (scanstring s) as [[key s1]|e] eqn:Hkey; [|reflexivity]);
      apply scanstring_consumes in Hkey;
      pose proof (skip_ws_length s1) as Hws1;
      (destruct (skip_ws s1) as [|colon s2]; [reflexivity|]);
      cbn [length] in Hws1;
      (destruct (negb (colon =? ord ":")); [reflexivity|]);
      pose proof (skip_ws_length s2) as Hws2;
      (destruct (expecting_value (scan (skip_ws s2))) as [[v s3]|e] eqn:Hv;
       [|reflexivity]);
      apply expecting_value_Return, Hscan in Hv;
      pose proof (skip_ws_length s3) as Hws3;
      (destruct (skip_ws s3) as [|nextchar s4]; [reflexivity|]);
      cbn [length] in Hws3;
      (destruct (nextchar =? ord "}"); [reflexivity|]);
      (destruct (negb (nextchar =? ord ",")); [reflexivity|]);
      pose proof (skip_ws_length s4) as Hws4;
      (destruct (skip_ws s4) as [|q s5]; [reflexivity|]);
      cbn [length] in Hws4;
      (destruct (negb (q =? quote)); [reflexivity|]).
    - lia.
    - apply IH. lia. }
  intros fuel pairs s Hlen.
  induction Hlen as [|fuel Hlen IH]; [reflexivity|].
  now rewrite Hstep.
Qed.

(** The scanner consumes, at every depth. *)
Lemma scan_once_consumes depth : consuming (scan_once depth).
Proof.
  clear_floats.
  induction depth as [|depth IH]; intros s value rest; [discriminate|].
  cbn [scan_once]. destruct s as [|nextchar s']; [discriminate|].
  destruct (nextchar =? quote).
  { destruct (scanstring s') as [[str r]|e] eqn:Hstr; [|discriminate].
    apply scanstring_consumes in Hstr. cbn [obind]. intros [= _ <-].
    cbn [length]. lia. }
  destruct (nextchar =? ord "{").
  { unfold JSONObject. pose proof (skip_ws_length s') as Hws.
    destruct (skip_ws s') as [|c s1]; [discriminate|]. cbn [length] in *.
    destruct (c =? quote).
    - intros H. apply (object_loop_consumes _ IH) in H. lia.
    - destruct (c =? ord "}"); [|discriminate]. intros [= _ <-]. lia. }
  destruct (nextchar =? ord "[").
  { unfold JSONArray. pose proof (skip_ws_length s') as Hws.
    destruct (skip_ws s') as [|c s1].
    - intros H. apply (array_loop_consumes _ IH) in H. cbn [length] in *. lia.
    - destruct (c =? ord "]"); [intros [= _ <-]; cbn [length] in *; lia|].
      intros H. apply (array_loop_consumes _ IH) in H. cbn [length] in *. lia. }
  repeat (match goal with
          | |- context [strip_prefix ?p (nextchar :: s')] =>
            let H := fresh "Hp" in
            destruct (strip_prefix p (nextchar :: s')) eqn:H;
            [apply strip_prefix_length in H; intros [= _ <-];
             rewrite H; cbn; lia|]
          end).
  apply scan_number_consumes.
Qed.

(** The counters that [JSONArray] and [JSONObject] give to their loops are
    no limit: with a larger one, the loops do the same. *)
Lemma loops_end depth fuel s :
  (length s <= fuel)%nat ->
  (forall values,
     array_loop (scan_once depth) fuel values s
     = array_loop (scan_once depth) (length s) values s) /\
  (forall pairs,
     object_loop (scan_once depth) fuel pairs s
     = object_loop (scan_once depth) (length s) pairs s).
Proof.
  intros Hlen. split; intros ?.
  - now apply array_loop_fuel; [apply scan_once_consumes|].
  - now apply object_loop_fuel; [apply scan_once_consumes|].
Qed.

(** ** The encoder on lists of records *)

Lemma iterencode_item depth i :
  snd (iterencode (S depth) (item_value i)) = None /\
  concat (fst (iterencode (S depth) (item_value i))) = item_text i.
Proof.
  split; [reflexivity|].
  cbn [iterencode item_value encode_scalar iterencode_dict iterencode_dict_loop
       encode_key andthen yield done_ fst snd app concat].
  unfold item_text, item_separator, key_separator.
  now rewrite app_nil_r, <- ?app_assoc.
Qed.

Lemma iterencode_list_loop_items depth l buf :
  let t := iterencode_list_loop (iterencode (S depth)) buf (map item_value l) in
  snd t = None /\
  concat (fst t) =
  match l with
  | [] => lit "]"
  | i :: l' => buf ++ item_text i ++ more_text l' ++ lit "]"
  end.
Proof.
  revert buf. induction l as [|i l IH]; intros buf; [now split|].
  cbn zeta in *. cbn [map iterencode_list_loop].
  change (encode_scalar (item_value i)) with (@None pystr).
  destruct (iterencode_item depth i) as [Hstop Htext].
  destruct (iterencode (S depth) (item_value i)) as [cs stop].
  cbn [fst snd] in Hstop, Htext. subst stop.
  destruct (IH item_separator) as [Hstop' Htext'].
  destruct (iterencode_list_loop (iterencode (S depth)) item_separator
              (map item_value l)) as [cs' stop'].
  cbn [fst snd] in Hstop', Htext'. subst stop'.
  cbn [yield andthen fst snd app]. split; [reflexivity|].
  cbn [concat]. rewrite concat_app, Htext, Htext'.
  destruct l as [|j l']; [reflexivity|].
  unfold more_text. cbn [flat_map]. now rewrite <- !app_assoc.
Qed.

Lemma iterencode_todo depth l :
  snd (iterencode (S (S depth)) (todo_value l)) = None /\
  concat (fst (iterencode (S (S depth)) (todo_value l))) = todo_text l.
Proof.
  destruct l as [|i l]; [now split|].
  exact (iterencode_list_loop_items depth (i :: l) (lit "[")).
Qed.

(** The encoder prints a list of records without raising, and the chunks
    make up its text. *)
Lemma json_chunks_todo l :
  snd (json_chunks (todo_value l)) = None /\
  concat (fst (json_chunks (todo_value l))) = todo_text l.
Proof.
  unfold json_chunks. change recursion_limit with (S (S 998)).
  apply iterencode_todo.
Qed.

(** ** What [fetch] and [save] do to the files *)

Lemma set_opened_same w : set_opened (opened w) w = w.
Proof. now destruct w. Qed.

Lemma set_files_same w : set_files (files w) w = w.
Proof. now destruct w. Qed.

Lemma file_object_eqb_refl f : file_object_eqb f f = true.
Proof.
  unfold file_object_eqb. rewrite String.eqb_refl. now destruct (mode f).
Qed.

Lemma remove_first_head f fos : remove_first f (f :: fos) = fos.
Proof. cbn [remove_first]. now rewrite file_object_eqb_refl. Qed.

(** What [fetch] does, for every state of the file. *)
Lemma fetch_eq w :
  fetch w =
  match files w !! file_name with
  | None => (Return (PList []), set_stdout (stdout w ++ [FileNotFoundError]) w)
  | Some Directory =>
    (Return (PList []), set_stdout (stdout w ++ [IsADirectoryError]) w)
  | Some (File false _ _) =>
    (Return (PList []), set_stdout (stdout w ++ [PermissionError]) w)
  | Some (File true _ Undecodable) =>
    (Return (PList []), set_stdout (stdout w ++ [UnicodeDecodeError]) w)
  | Some (File true _ (Text t)) =>
    match json_loads t with
    | Return obj => (Return obj, w)
    | Raise e => (Return (PList []), set_stdout (stdout w ++ [e]) w)
    end
  end.
Proof.
  unfold fetch, try_except, with_open, open_, print, ret.
  destruct (files w !! file_name) as [[[|] wr [t|]|]|] eqn:Hfile; try reflexivity.
  - unfold json_load, bind, read, close. cbn [mode name files set_opened].
    rewrite Hfile.
    destruct (json_loads t) as [obj|e]; cbn [ret raise opened set_opened];
      rewrite remove_first_head; now destruct w.
  - unfold json_load, bind, read, close. cbn [mode name files set_opened].
    rewrite Hfile. cbn [opened set_opened]. rewrite remove_first_head.
    now destruct w.
Qed.

Lemma same_but_refl path w : same_but path w w.
Proof. now repeat split. Qed.

Lemma same_but_trans path w1 w2 w3 :
  same_but path w1 w2 -> same_but path w2 w3 -> same_but path w1 w3.
Proof.
  intros (Hc & Hr & Ho & Hs & Hf) (Hc' & Hr' & Ho' & Hs' & Hf').
  repeat split; try congruence. intros q Hq. now rewrite Hf', Hf.
Qed.

Lemma same_but_set_files path node w :
  same_but path w (set_files (<[path := node]> (files w)) w).
Proof.
  repeat split. intros q Hq. cbn [files set_files]. now apply lookup_insert_ne.
Qed.

Lemma write_same_but fp chunk w : same_but (name fp) w (snd (write fp chunk w)).
Proof.
  unfold write.
  destruct (mode fp), (files w !! name fp) as [[r wr [t|]|]|];
    try apply same_but_refl.
  destruct (fits (room w) (t ++ chunk)); [|apply same_but_refl].
  apply same_but_set_files.
Qed.

Lemma write_chunks_same_but fp chunks w :
  same_but (name fp) w (snd (write_chunks fp chunks w)).
Proof.
  revert w. induction chunks as [|chunk chunks IH]; intros w;
    [apply same_but_refl|].
  cbn [write_chunks]. unfold bind.
  pose proof (write_same_but fp chunk w) as Hw.
  destruct (write fp chunk w) as [[[]|e] w1]; [|exact Hw].
  exact (same_but_trans _ _ _ _ Hw (IH w1)).
Qed.

Lemma json_dump_same_but obj fp w :
  same_but (name fp) w (snd (json_dump obj fp w)).
Proof.
  unfold json_dump. destruct (json_chunks obj) as [chunks stopped].
  unfold bind. pose proof (write_chunks_same_but fp chunks w) as Hw.
  destruct (write_chunks fp chunks w) as [[[]|e] w1]; [|exact Hw].
  now destruct stopped.
Qed.

(** [save] changes nothing but the entry [todo.json]: no other file, not
    the open file objects, not the output. *)
Lemma save_same_but todo_list w :
  same_but file_name w (snd (save todo_list w)).
Proof.
  unfold save, with_open.
  assert (Hbody : forall w1,
    same_but file_name w w1 ->
    same_but file_name w
      (snd (let (r, w2) :=
              json_dump todo_list {| name := file_name; mode := ModeW |}
                (set_opened ({| name := file_name; mode := ModeW |} :: opened w1) w1) in
            let (_, w3) := close {| name := file_name; mode := ModeW |} w2 in
            (r, w3)))).
  { intros w1 Hw1.
    pose proof (json_dump_same_but todo_list {| name := file_name; mode := ModeW |}
                  (set_opened ({| name := file_name; mode := ModeW |} :: opened w1) w1))
      as Hd.
    destruct (json_dump _ _ _) as [r w2]. cbn [snd close name] in *.
    destruct Hd as (Hc & Hr & Ho & Hs & Hf).
    destruct Hw1 as (Hc1 & Hr1 & Ho1 & Hs1 & Hf1).
    cbn [may_create room opened stdout files set_opened] in *.
    repeat split; cbn [may_create room opened stdout files set_opened];
      try congruence.
    - now rewrite Ho, remove_first_head.
    - intros q Hq. now rewrite Hf, Hf1. }
  unfold open_.
  destruct (files w !! file_name) as [[r wr data|]|];
    [destruct wr | | destruct (may_create w)];
    try apply same_but_refl;
    apply (Hbody (set_files _ w)), same_but_set_files.
Qed.

Lemma fits_app limit t chunk : fits limit (t ++ chunk) = true -> fits limit t = true.
Proof.
  clear_floats.
  destruct limit as [n|]; [|reflexivity]. cbn [fits]. rewrite length_app.
  intros H. apply Nat.leb_le in H. apply Nat.leb_le. lia.
Qed.

(** As long as the device has room, the chunks go to the end of the file. *)
Lemma write_chunks_fits fp chunks : forall w r wr t,
  mode fp = ModeW ->
  files w !! name fp = Some (File r wr (Text t)) ->
  fits (room w) (t ++ concat chunks) = true ->
  write_chunks fp chunks w
  = (Return tt,
     set_files (<[name fp := File r wr (Text (t ++ concat chunks))]> (files w)) w).
Proof.
  induction chunks as [|chunk chunks IH]; intros w r wr t Hmode Hfile Hfits.
  - cbn [write_chunks concat ret]. rewrite app_nil_r.
    rewrite insert_id by assumption. now rewrite set_files_same.
  - cbn [write_chunks concat] in *. unfold bind, write at 1.
    rewrite Hmode, Hfile. rewrite app_assoc in Hfits.
    rewrite (fits_app _ _ _ Hfits).
    rewrite (IH _ r wr (t ++ chunk)); try assumption.
    + cbn [files set_files]. rewrite insert_insert_eq, <- app_assoc.
      now destruct w.
    + cbn [files set_files]. apply lookup_insert_eq.
Qed.

(** When the device has no room for all the chunks, a write fails. *)
Lemma write_chunks_full fp chunks : forall w r wr t,
  mode fp = ModeW ->
  files w !! name fp = Some (File r wr (Text t)) ->
  fits (room w) t = true ->
  fits (room w) (t ++ concat chunks) = false ->
  fst (write_chunks fp chunks w) = Raise NoSpaceLeftOnDevice.
Proof.
  induction chunks as [|chunk chunks IH]; intros w r wr t Hmode Hfile Ht Hfull.
  - cbn [concat] in Hfull. rewrite app_nil_r in Hfull. congruence.
  - cbn [write_chunks concat] in *. unfold bind, write at 1.
    rewrite Hmode, Hfile.
    destruct (fits (room w) (t ++ chunk)) eqn:Hchunk; [|reflexivity].
    apply (IH _ r wr (t ++ chunk)); try assumption.
    + cbn [files set_files]. apply lookup_insert_eq.
    + now rewrite <- app_assoc.
Qed.

(** What [save] does when the file can be opened and the device has room for
    all the encoder yields: the file holds just that, and [save] ends as
    the encoder does. *)
Lemma save_eq todo_list w :
  writable_store w ->
  fits (room w) (concat (fst (json_chunks todo_list))) = true ->
  save todo_list w
  = (match snd (json_chunks todo_list) with
     | None => Return tt
     | Some e => Raise e
     end,
     saved (concat (fst (json_chunks todo_list))) w).
Proof.
  intros Hw Hfits. unfold save, with_open, json_dump, saved, readable_after.
  destruct (json_chunks todo_list) as [chunks stopped]. cbn [fst snd] in *.
  set (f := {| name := file_name; mode := ModeW |}).
  assert (Hbody : forall r,
    let w1 := set_opened (f :: opened w)
                (set_files (<[file_name := File r true (Text [])]> (files w)) w) in
    (let (res, w2) :=
       (write_chunks f chunks;;;
        match stopped with Some e => raise e | None => ret tt end) w1 in
     let (_, w3) := close f w2 in (res, w3))
    = (match stopped with None => Return tt | Some e => Raise e end,
       set_files (<[file_name := File r true (Text (concat chunks))]> (files w)) w)).
  { intros r w1. unfold bind.
    rewrite (write_chunks_fits f chunks w1 r true []); try reflexivity;
      [| apply lookup_insert_eq | assumption].
    subst w1 f. cbn [app name files set_files set_opened].
    rewrite insert_insert_eq.
    destruct stopped; cbn [raise ret close opened set_opened set_files];
      now rewrite remove_first_head. }
  unfold open_, writable_store in *.
  destruct (files w !! file_name) as [[r wr data|]|]; [subst wr | contradiction |].
  - apply Hbody.
  - rewrite Hw. apply Hbody.
Qed.

(** When the device has no room for all the encoder yields, [save] raises
    the error of the failed write. *)
Lemma save_full todo_list w :
  writable_store w ->
  fits (room w) (concat (fst (json_chunks todo_list))) = false ->
  fst (save todo_list w) = Raise NoSpaceLeftOnDevice.
Proof.
  intros Hw Hfull. unfold save, with_open, json_dump.
  destruct (json_chunks todo_list) as [chunks stopped]. cbn [fst snd] in *.
  set (f := {| name := file_name; mode := ModeW |}).
  assert (Hbody : forall r,
    let w1 := set_opened (f :: opened w)
                (set_files (<[file_name := File r true (Text [])]> (files w)) w) in
    fst (let (res, w2) :=
           (write_chunks f chunks;;;
            match stopped with Some e => raise e | None => ret tt end) w1 in
         let (_, w3) := close f w2 in (res, w3))
    = Raise NoSpaceLeftOnDevice).
  { intros r w1. unfold bind.
    pose proof (write_chunks_full f chunks w1 r true [] eq_refl) as Hfail.
    destruct (write_chunks f chunks w1) as [res w2]. cbn [fst] in *.
    rewrite Hfail; [reflexivity | apply lookup_insert_eq | | assumption].
    now destruct (room w1). }
  unfold open_, writable_store in *.
  destruct (files w !! file_name) as [[r wr data|]|]; [subst wr | contradiction |].
  - apply Hbody.
  - rewrite Hw. apply Hbody.
Qed.

(** When the file cannot be opened for writing, [save] raises the error of
    [open] and leaves the world as it is. *)
Lemma save_not_opened todo_list w :
  save todo_list w =
  match files w !! file_name with
  | Some Directory => (Raise IsADirectoryError, w)
  | Some (File _ false _) => (Raise PermissionError, w)
  | None => if may_create w then save todo_list w else (Raise PermissionError, w)
  | _ => save todo_list w
  end.
Proof.
  destruct (files w !! file_name) as [[r [|] data|]|] eqn:Hfile; try reflexivity;
    try (unfold save, with_open, open_; now rewrite Hfile).
  destruct (may_create w) eqn:Hc; [reflexivity|].
  unfold save, with_open, open_. now rewrite Hfile, Hc.
Qed.

(** ** The store *)

Lemma usable_writable w : usable w -> writable_store w /\ readable_after w = true.
Proof.
  unfold usable, writable_store, readable_after.
  destruct (files w !! file_name) as [[r wr data|]|]; intuition.
Qed.

Lemma lookup_saved t w :
  files (saved t w) !! file_name = Some (File (readable_after w) true (Text t)).
Proof. unfold saved. cbn [files set_files]. apply lookup_insert_eq. Qed.

Lemma usable_saved t w : usable w -> usable (saved t w).
Proof.
  intros Hw. unfold usable. rewrite lookup_saved.
  now rewrite (proj2 (usable_writable w Hw)).
Qed.

(** [save] raises exactly the failure of opening, writing or encoding. *)
Lemma save_raises todo_list w e :
  fst (save todo_list w) = Raise e <-> save_failure todo_list w e.
Proof.
  unfold save_failure.
  assert (Hopened : writable_store w ->
    (fst (save todo_list w) = Raise e <->
     if fits (room w) (concat (fst (json_chunks todo_list)))
     then snd (json_chunks todo_list) = Some e
     else e = NoSpaceLeftOnDevice)).
  { intros Hw.
    destruct (fits (room w) (concat (fst (json_chunks todo_list)))) eqn:Hfits.
    - rewrite save_eq by assumption. cbn [fst].
      destruct (snd (json_chunks todo_list)); split; congruence.
    - rewrite save_full by assumption. split; congruence. }
  rewrite save_not_opened. unfold writable_store in Hopened.
  destruct (files w !! file_name) as [[r [|] data|]|];
    [now apply Hopened | cbn [fst]; split; congruence
     | cbn [fst]; split; congruence |].
  destruct (may_create w); [now apply Hopened | cbn [fst]; split; congruence].
Qed.

(** A [save] of records that returns leaves their text in the file. *)
Lemma save_todo_returns l w :
  fst (save (todo_value l) w) = Return tt ->
  writable_store w /\ save (todo_value l) w = (Return tt, saved (todo_text l) w).
Proof.
  intros Hret.
  assert (Hw : writable_store w).
  { rewrite save_not_opened in Hret. unfold writable_store.
    destruct (files w !! file_name) as [[r [|] data|]|]; try discriminate Hret;
      [reflexivity|].
    now destruct (may_create w). }
  split; [assumption|].
  destruct (json_chunks_todo l) as [Hstop Htext].
  destruct (fits (room w) (concat (fst (json_chunks (todo_value l))))) eqn:Hfits.
  - rewrite save_eq by assumption. now rewrite Hstop, Htext.
  - rewrite save_full in Hret by assumption. discriminate Hret.
Qed.

(** On a device with room for the text, a [save] of records returns. *)
Lemma save_todo_room l w :
  writable_store w ->
  fits (room w) (todo_text l) = true ->
  save (todo_value l) w = (Return tt, saved (todo_text l) w).
Proof.
  intros Hw Hfits. destruct (json_chunks_todo l) as [Hstop Htext].
  rewrite <- Htext in Hfits. rewrite save_eq by assumption.
  now rewrite Hstop, Htext.
Qed.

(** What [fetch] returns after a [save] of records that returned. *)
Lemma save_fetch_joined l w :
  usable w -> Forall is_item l ->
  fst (save (todo_value l) w) = Return tt ->
  fetch (snd (save (todo_value l) w))
  = (Return (todo_value (map join_item l)), saved (todo_text l) w).
Proof.
  intros Hw Hl Hret. destruct (save_todo_returns l w Hret) as [_ ->].
  cbn [snd]. rewrite fetch_eq, lookup_saved.
  rewrite (proj2 (usable_writable w Hw)). now rewrite json_loads_todo_text.
Qed.

Lemma map_join_item l :
  Forall (fun i => pair_free_item i = true) l -> map join_item l = l.
Proof.
  induction 1 as [|i l Hi _ IH]; [reflexivity|].
  cbn [map]. now rewrite join_item_pair_free, IH.
Qed.

(** C1, as amended. For every list of task records in whose strings no
    high surrogate is followed by a low one, and every world in which the
    file is absent and can be created or is a readable and writable
    regular file: when [save] of the list returns, [fetch] returns a list
    equal to it, record by record and in the same order. *)
Theorem save_fetch_roundtrip (l : list item) (w : world) :
  usable w ->
  Forall is_item l ->
  Forall (fun i => pair_free_item i = true) l ->
  fst (save (todo_value l) w) = Return tt ->
  fst (fetch (snd (save (todo_value l) w))) = Return (todo_value l).
Proof.
  intros Hw Hl Hfree Hret.
  rewrite save_fetch_joined by assumption. cbn [fst].
  now rewrite map_join_item.
Qed.

(** C2, as amended. [fetch] never raises. When opening the file, reading it
    or parsing its text fails with an exception, [fetch] prints the
    exception and returns the empty list; the world is otherwise as
    before. *)
Theorem fetch_masks_failures (w : world) :
  (forall e, fst (fetch w) <> Raise e) /\
  (forall e, load_failure w e ->
     fetch w = (Return (PList []), set_stdout (stdout w ++ [e]) w)).
Proof.
  rewrite fetch_eq. unfold load_failure.
  destruct (files w !! file_name) as [[[|] wr [t|]|]|];
    try (split; [discriminate | now intros e ->]).
  destruct (json_loads t) as [obj|e']; (split; [discriminate|]).
  - discriminate.
  - now intros e [= ->].
Qed.

(** C3. When the file does not exist, [fetch] returns the empty list and
    raises nothing. *)
Theorem fetch_missing_file (w : world) :
  files w !! file_name = None ->
  fst (fetch w) = Return (PList []).
Proof. intros Hfile. now rewrite fetch_eq, Hfile. Qed.

(** C4. When the text of the file fails to parse, [fetch] returns the empty
    list and does not raise the error of the parser. *)
Theorem fetch_corrupt_file (w : world) (r wr : bool) (t : pystr) (e : exn) :
  files w !! file_name = Some (File r wr (Text t)) ->
  json_loads t = Raise e ->
  fst (fetch w) = Return (PList []).
Proof.
  intros Hfile Hparse. rewrite fetch_eq, Hfile, Hparse. now destruct r.
Qed.

Lemma write_chunks_node fp chunks : forall w r wr t,
  files w !! name fp = Some (File r wr (Text t)) ->
  exists t', files (snd (write_chunks fp chunks w)) !! name fp
             = Some (File r wr (Text t')).
Proof.
  induction chunks as [|chunk chunks IH]; intros w r wr t Hfile; [now exists t|].
  cbn [write_chunks]. unfold bind, write at 1. rewrite Hfile.
  destruct (mode fp); [now exists t|].
  destruct (fits (room w) (t ++ chunk)); [|now exists t].
  apply (IH _ r wr (t ++ chunk)). cbn [files set_files]. apply lookup_insert_eq.
Qed.

Lemma save_usable todo_list w : usable w -> usable (snd (save todo_list w)).
Proof.
  intros Hw.
  assert (Hnode : exists t, files (snd (save todo_list w)) !! file_name
                            = Some (File true true (Text t))).
  { unfold save, with_open, json_dump.
    destruct (json_chunks todo_list) as [chunks stopped].
    set (f := {| name := file_name; mode := ModeW |}).
    assert (Hbody : forall w1,
      files w1 !! file_name = Some (File true true (Text [])) ->
      exists t,
        files (snd (let (res, w2) :=
                      (write_chunks f chunks;;;
                       match stopped with Some e => raise e | None => ret tt end) w1 in
                    let (_, w3) := close f w2 in (res, w3))) !! file_name
        = Some (File true true (Text t))).
    { intros w1 Hfile. unfold bind.
      destruct (write_chunks_node f chunks w1 true true [] Hfile) as (t & Ht).
      exists t. destruct (write_chunks f chunks w1) as [[[]|e] w2];
        cbn [snd name f] in Ht; [destruct stopped|]; exact Ht. }
    unfold open_, usable in *.
    destruct (files w !! file_name) as [[r wr data|]|];
      [destruct Hw as [-> ->] | contradiction | rewrite Hw];
      apply Hbody; cbn [files set_files set_opened]; apply lookup_insert_eq. }
  destruct Hnode as (t & Ht). unfold usable. now rewrite Ht.
Qed.

(** C5, as amended. For every value [A] and every list of task records [B]
    in whose strings no high surrogate is followed by a low one: after
    [save(A)] and a [save(B)] that returns, the file holds the text of [B]
    and nothing else, and [fetch] returns [B]. *)
Theorem save_overwrites (A : pyval) (B : list item) (w : world) :
  usable w ->
  Forall is_item B ->
  Forall (fun i => pair_free_item i = true) B ->
  fst (save (todo_value B) (snd (save A w))) = Return tt ->
  files (snd (save (todo_value B) (snd (save A w)))) !! file_name
  = Some (File true true (Text (todo_text B))) /\
  fst (fetch (snd (save (todo_value B) (snd (save A w))))) = Return (todo_value B).
Proof.
  intros Hw HB Hfree Hret.
  pose proof (save_usable A w Hw) as Hw1.
  split.
  - destruct (save_todo_returns B _ Hret) as [_ ->]. cbn [snd].
    rewrite lookup_saved. now rewrite (proj2 (usable_writable _ Hw1)).
  - rewrite save_fetch_joined by assumption. cbn [fst].
    now rewrite map_join_item.
Qed.

(** C6. When the file cannot be opened for writing (it is a directory, it
    may not be written, it cannot be created), when a write finds the device
    full, or when the encoder raises on the list, [save] raises that very
    exception to its caller. *)
Theorem save_propagates (todo_list : pyval) (w : world) (e : exn) :
  save_failure todo_list w e ->
  fst (save todo_list w) = Raise e.
Proof. apply save_raises. Qed.

(** C7. [save] touches no entry of the directory but [todo.json], and
    [fetch] none at all; what [fetch] returns depends on no other entry.
    After a [save] of task records that returns, the file holds the text
    [todo_text] of the list: a JSON array with one object for each record,
    which the decoder reads as the list of dictionaries with an integer
    [id], a string [content] and a string [status]. *)
Theorem store_file :
  (forall todo_list w q, q <> file_name ->
     files (snd (save todo_list w)) !! q = files w !! q) /\
  (forall w, files (snd (fetch w)) = files w) /\
  (forall w w', files w !! file_name = files w' !! file_name ->
     fst (fetch w) = fst (fetch w')) /\
  (forall l w,
     Forall is_item l ->
     fst (save (todo_value l) w) = Return tt ->
     (exists r, files (snd (save (todo_value l) w)) !! file_name
                = Some (File r true (Text (todo_text l)))) /\
     json_loads (todo_text l) = Return (todo_value (map join_item l))).
Proof.
  split; [|split; [|split]].
  - intros todo_list w q Hq. now apply save_same_but.
  - intros w. rewrite fetch_eq.
    destruct (files w !! file_name) as [[[|] wr [t|]|]|]; try reflexivity.
    now destruct (json_loads t).
  - intros w w' Hsame. rewrite !fetch_eq, <- Hsame.
    destruct (files w !! file_name) as [[[|] wr [t|]|]|]; try reflexivity.
    now destruct (json_loads t).
  - intros l w Hl Hret. split; [|now apply json_loads_todo_text].
    destruct (save_todo_returns l w Hret) as [_ ->]. cbn [snd].
    eexists. apply lookup_saved.
Qed.

(** C8. However [save] ends, by returning or by raising, the file objects
    that are open afterwards are those that were open before: the one that
    [open] added, and that is open while [json.dump] runs, has been
    closed. *)
Theorem save_releases (todo_list : pyval) (w : world) :
  opened (snd (save todo_list w)) = opened w /\
  (forall f w1, open_ file_name ModeW w = (Return f, w1) ->
     opened w1 = f :: opened w /\
     opened (snd (json_dump todo_list f w1)) = f :: opened w).
Proof.
  split; [apply save_same_but|].
  intros f w1 Hopen.
  assert (Hw1 : opened w1 = f :: opened w).
  { unfold open_ in Hopen.
    destruct (files w !! file_name) as [[r [|] data|]|];
      [| discriminate Hopen | discriminate Hopen | destruct (may_create w)];
      try discriminate Hopen; now injection Hopen as <- <-. }
  split; [assumption|].
  rewrite <- Hw1. apply json_dump_same_but.
Qed.

Lemma length_todo_text l : (1 <= length (todo_text l))%nat.
Proof.
  destruct l as [|i l]; cbn [todo_text]; [cbn; lia|].
  rewrite length_app. cbn [lit map list_ascii_of_string length]. lia.
Qed.

(** C9. A [save] that fails on a value it cannot encode has already emptied
    the file. For every non-empty list of task records that was saved before
    (and that [fetch] returned), [save] of a list with an object of another
    class raises the error of the encoder, leaves only an opening bracket in
    the file, and [fetch] then returns the empty list: the saved list is
    lost. *)
Theorem save_not_atomic (l : list item) (cls : string) (w : world) :
  usable w ->
  Forall is_item l ->
  Forall (fun i => pair_free_item i = true) l ->
  l <> [] ->
  fst (save (todo_value l) w) = Return tt ->
  let w1 := snd (save (todo_value l) w) in
  let w2 := snd (save (PList [PObj cls]) w1) in
  fst (fetch w1) = Return (todo_value l) /\
  fst (save (PList [PObj cls]) w1) = Raise (not_serializable cls) /\
  files w2 !! file_name = Some (File true true (Text (lit "["))) /\
  fst (fetch w2) = Return (PList []) /\
  todo_value l <> PList [].
Proof.
  intros Hw Hl Hfree Hne Hret w1 w2.
  pose proof (save_usable (todo_value l) w Hw) as Hw1. fold w1 in Hw1.
  destruct (usable_writable w1 Hw1) as [Hwr1 Hr1].
  assert (Hchunks : json_chunks (PList [PObj cls])
                    = ([lit "["], Some (not_serializable cls))) by reflexivity.
  assert (Hfits : fits (room w1) (concat (fst (json_chunks (PList [PObj cls])))) = true).
  { rewrite Hchunks. subst w1. destruct (save_todo_returns l w Hret) as [Hwr Hsave].
    rewrite Hsave. cbn [snd saved room set_files].
    destruct (json_chunks_todo l) as [Hstop Htext].
    destruct (fits (room w) (concat (fst (json_chunks (todo_value l))))) eqn:Hroom.
    - rewrite Htext in Hroom. destruct (room w) as [n|]; [|reflexivity].
      cbn [fits] in *. apply Nat.leb_le in Hroom. apply Nat.leb_le.
      pose proof (length_todo_text l). cbn. lia.
    - rewrite save_full in Hret by assumption. discriminate Hret. }
  assert (Hsave2 : save (PList [PObj cls]) w1
                   = (Raise (not_serializable cls), saved (lit "[") w1)).
  { rewrite save_eq by assumption. now rewrite Hchunks. }
  split.
  { subst w1. rewrite save_fetch_joined by assumption. cbn [fst].
    now rewrite map_join_item. }
  split; [now rewrite Hsave2|].
  subst w2. rewrite Hsave2. cbn [snd]. rewrite fetch_eq, lookup_saved, Hr1.
  split; [reflexivity|]. split; [reflexivity|].
  destruct l; [contradiction | discriminate].
Qed.

(** C10. [fetch] leaves the files as they are, whether it returns what
    it read or the empty list. *)
Theorem fetch_keeps_files (w : world) : files (snd (fetch w)) = files w.
Proof.
  rewrite fetch_eq.
  destruct (files w !! file_name) as [[[|] wr [t|]|]|]; try reflexivity.
  now destruct (json_loads t).
Qed.

(** * Beyond lists of records *)

(** ** Every value without floating point numbers comes back *)

Lemma plain_str_spec s :
  plain_str s = true -> is_str s /\ join_surrogates s = s.
Proof.
  clear_floats.
  unfold plain_str. intros H. apply andb_prop in H as [Hs Hfree].
  split; [|now apply pair_free_join].
  unfold is_str, is_codepoint. apply List.Forall_forall. intros c Hc.
  apply (proj1 (List.forallb_forall _ _) Hs) in Hc. lia.
Qed.

Lemma starts_value_skip_ws t rest :
  starts_value t = true -> skip_ws (t ++ rest) = t ++ rest.
Proof.
  clear_floats.
  destruct t as [|c t]; [discriminate|]. cbn [starts_value app]. intros H.
  apply skip_ws_stop. destruct (is_ws c); [discriminate H|reflexivity].
Qed.

Lemma encode_scalar_text depth v t :
  encode_scalar v = Some t -> text_at (S depth) v = t.
Proof.
  intros H. unfold text_at. cbn [iterencode]. rewrite H.
  cbn [yield fst concat]. apply app_nil_r.
Qed.

(** The scanner reads the scalars from their texts. *)
Lemma reads_scalar depth v t :
  encode_scalar v = Some t ->
  plain 1 v = true ->
  reads (scan_once (S depth)) v t.
Proof.
  intros Ht Hv. destruct v as [| [|] | z | x | s | l | d | cls];
    try discriminate Hv; try discriminate Ht;
    cbn [encode_scalar] in Ht; injection Ht as <-.
  - split; [reflexivity|]. intros rest _. reflexivity.
  - split; [reflexivity|]. intros rest _. reflexivity.
  - split; [reflexivity|]. intros rest _. reflexivity.
  - split; [|intros rest Hrest; now apply scan_once_intstr].
    destruct (intstr_head z) as (c & t & -> & Hc). cbn [starts_value].
    destruct Hc as [->|Hc]; [reflexivity|].
    unfold is_digit, is_ws in *. change (ord "]") with 93. lia.
  - cbn [plain] in Hv. apply plain_str_spec in Hv as [Hs Hjoin].
    split; [reflexivity|]. intros rest _. unfold encode_basestring_ascii.
    cbn [app]. rewrite <- app_assoc. cbn [app].
    now rewrite scan_once_string, Hjoin.
Qed.

(** What the encoder yields for the elements of a list. *)
Lemma iterencode_list_loop_text depth l :
  forallb (plain depth) l = true ->
  (forall v, plain depth v = true -> snd (iterencode depth v) = None) ->
  forall buf,
    snd (iterencode_list_loop (iterencode depth) buf l) = None /\
    concat (fst (iterencode_list_loop (iterencode depth) buf l)) =
    match l with
    | [] => lit "]"
    | v :: l' =>
      buf ++ text_at depth v ++ more_elements (text_at depth) l' ++ lit "]"
    end.
Proof.
  intros Hl Hstop. induction l as [|v l IH]; intros buf; [now split|].
  cbn [forallb] in Hl. apply andb_prop in Hl as [Hv Hl].
  destruct (IH Hl item_separator) as [Hstop' Htext'].
  assert (Htail : concat (fst (iterencode_list_loop (iterencode depth)
                                 item_separator l))
                  = more_elements (text_at depth) l ++ lit "]").
  { rewrite Htext'. destruct l as [|u l']; [reflexivity|].
    unfold more_elements. cbn [flat_map]. now rewrite <- !app_assoc. }
  cbn [iterencode_list_loop].
  destruct (iterencode_list_loop (iterencode depth) item_separator l)
    as [cs' stop']. cbn [fst snd] in *. subst stop'.
  destruct (encode_scalar v) as [t|] eqn:Ht.
  - destruct depth as [|depth']; [discriminate Hv|].
    rewrite (encode_scalar_text depth' v t Ht).
    cbn [yield andthen fst snd concat app]. split; [reflexivity|].
    now rewrite Htail, <- !app_assoc.
  - specialize (Hstop v Hv). unfold text_at.
    destruct (iterencode depth v) as [cs stop]. cbn [fst snd] in *. subst stop.
    cbn [yield andthen fst snd concat app]. split; [reflexivity|].
    now rewrite concat_app, Htail.
Qed.

Lemma length_more_elements text l :
  (length l <= length (more_elements text l))%nat.
Proof.
  clear_floats.
  induction l as [|v l IH]; [reflexivity|].
  unfold more_elements in *. cbn [flat_map length]. rewrite !length_app.
  change (length (lit ", ")) with 2%nat. lia.
Qed.

Lemma number_end_separator t : number_end (lit ", " ++ t) = true.
Proof. reflexivity. Qed.

(** A scanner that reads the elements reads them one after the other, up
    to the closing bracket. *)
Lemma array_loop_elements scan text l :
  Forall (fun v => reads scan v (text v)) l ->
  forall v values fuel rest,
    reads scan v (text v) ->
    (length l <= fuel)%nat ->
    array_loop scan fuel values (text v ++ more_elements text l ++ lit "]" ++ rest)
    = Return (PList (values ++ v :: l), rest).
Proof.
  clear_floats.
  induction 1 as [|u l Hu Hl IH]; intros v values fuel rest [Hstart Hv] Hfuel;
    rewrite array_loop_eq.
  - rewrite Hv by reflexivity. cbn [more_elements flat_map app lit map
                                     list_ascii_of_string].
    scan_step. reflexivity.
  - unfold more_elements. cbn [flat_map]. fold (more_elements text l).
    rewrite <- !app_assoc. rewrite Hv by reflexivity.
    cbn [app lit map list_ascii_of_string length] in *. scan_step.
    destruct fuel as [|fuel]; [lia|].
    rewrite starts_value_skip_ws by apply Hu.
    rewrite IH by (assumption || lia). now rewrite <- app_assoc.
Qed.

Lemma distinct_keys_cons kv d :
  distinct_keys (kv :: d) = true ->
  fst kv = PStr (key_str (fst kv)) /\ plain_str (key_str (fst kv)) = true /\
  has_key (key_str (fst kv)) d = false /\ distinct_keys d = true.
Proof.
  clear_floats.
  destruct kv as [[| | | | key | | |] v]; try discriminate.
  cbn [distinct_keys fst key_str]. intros H.
  apply andb_prop in H as [H Hd]. apply andb_prop in H as [Hkey Hnew].
  apply negb_true_iff in Hnew. now repeat split.
Qed.

(** What the encoder yields for the members of a dictionary. *)
Lemma iterencode_dict_loop_text depth d :
  distinct_keys d = true ->
  forallb (fun kv => plain depth (snd kv)) d = true ->
  (forall v, plain depth v = true -> snd (iterencode depth v) = None) ->
  forall first,
    snd (iterencode_dict_loop (iterencode depth) first d) = None /\
    concat (fst (iterencode_dict_loop (iterencode depth) first d)) =
    match d with
    | [] => lit "}"
    | kv :: d' =>
      (if first then [] else lit ", ")
      ++ encode_basestring_ascii (key_str (fst kv)) ++ lit ": "
      ++ text_at depth (snd kv) ++ more_members (text_at depth) d' ++ lit "}"
    end.
Proof.
  intros Hkeys Hd Hstop. induction d as [|kv d IH]; intros first; [now split|].
  apply distinct_keys_cons in Hkeys as (Hkey & _ & _ & Hkeys).
  cbn [forallb] in Hd. apply andb_prop in Hd as [Hv Hd].
  destruct (IH Hkeys Hd false) as [Hstop' Htext'].
  assert (Htail : concat (fst (iterencode_dict_loop (iterencode depth) false d))
                  = more_members (text_at depth) d ++ lit "}").
  { rewrite Htext'. destruct d as [|kv' d']; [reflexivity|].
    unfold more_members. cbn [flat_map]. now rewrite <- !app_assoc. }
  destruct kv as [key v]. cbn [fst snd] in *. rewrite Hkey.
  cbn [iterencode_dict_loop encode_key key_str].
  destruct (iterencode_dict_loop (iterencode depth) false d) as [cs' stop'].
  cbn [fst snd] in *. subst stop'.
  assert (Hvalue : forall t,
    snd t = None -> concat (fst t) = text_at depth v ->
    let r :=
      andthen (if first then done_ else yield item_separator)
        (andthen (yield (encode_basestring_ascii (key_str key)))
           (andthen (yield key_separator) (andthen t (cs', None)))) in
    snd r = None /\
    concat (fst r) =
    (if first then [] else lit ", ")
    ++ encode_basestring_ascii (key_str key) ++ lit ": " ++ text_at depth v
    ++ more_members (text_at depth) d ++ lit "}").
  { intros [cs stop] Hs Ht. cbn [fst snd] in Hs, Ht. subst stop.
    destruct first; cbn [done_ yield andthen fst snd concat app];
      (split; [reflexivity|]);
      rewrite ?concat_app, Ht, Htail; unfold key_separator;
      now rewrite <- ?app_assoc. }
  destruct (encode_scalar v) as [t|] eqn:Ht.
  - destruct depth as [|depth']; [discriminate Hv|].
    apply (Hvalue (yield t)); [reflexivity|].
    rewrite (encode_scalar_text depth' v t Ht). apply app_nil_r.
  - apply (Hvalue (iterencode depth v)); [now apply Hstop | reflexivity].
Qed.

Lemma length_more_members text d :
  (length d <= length (more_members text d))%nat.
Proof.
  clear_floats.
  induction d as [|kv d IH]; [reflexivity|].
  unfold more_members in *. cbn [flat_map length]. rewrite !length_app.
  change (length (lit ", ")) with 2%nat. lia.
Qed.

(** A key that the dictionary does not have goes to its end. *)
Lemma dict_setitem_new d key value :
  has_key key d = false -> dict_setitem d key value = d ++ [(PStr key, value)].
Proof.
  clear_floats.
  induction d as [|[k v] d IH]; [reflexivity|].
  cbn [has_key existsb fst dict_setitem app]. intros H.
  apply orb_false_elim in H as [Hk Hd]. rewrite Hk. f_equal. now apply IH.
Qed.

Lemma is_key_sym key key' : is_key key (PStr key') = is_key key' (PStr key).
Proof.
  clear_floats.
  cbn [is_key]. apply bool_decide_ext. split; congruence.
Qed.

Lemma has_key_app key d d' : has_key key (d ++ d') = has_key key d || has_key key d'.
Proof. clear_floats. unfold has_key. apply existsb_app. Qed.

(** [dict(pairs)] of pairs with distinct keys has the pairs as its items,
    in their order. *)
Lemma dict_of_pairs_distinct d : forall acc,
  distinct_keys d = true ->
  forallb (fun kv => negb (has_key (key_str (fst kv)) acc)) d = true ->
  fold_left (fun d '(key, value) => dict_setitem d key value)
    (map (fun kv => (key_str (fst kv), snd kv)) d) acc
  = acc ++ d.
Proof.
  clear_floats.
  induction d as [|kv d IH]; intros acc Hkeys Hnew; [now rewrite app_nil_r|].
  pose proof Hkeys as Hkeys0.
  apply distinct_keys_cons in Hkeys as (Hkey & _ & Hfresh & Hkeys).
  cbn [forallb] in Hnew. apply andb_prop in Hnew as [Hkv Hnew].
  apply negb_true_iff in Hkv.
  cbn [map fold_left]. rewrite dict_setitem_new by assumption.
  rewrite IH; [| assumption |].
  - rewrite <- app_assoc. cbn [app]. rewrite <- Hkey. now destruct kv.
  - clear IH Hkeys0. induction d as [|kv' d IHd]; [reflexivity|].
    cbn [forallb] in *. apply andb_prop in Hnew as [Hkv' Hnew].
    cbn [has_key existsb] in Hfresh. apply orb_false_elim in Hfresh as [Hne Hfresh].
    apply distinct_keys_cons in Hkeys as (Hkey' & _ & _ & Hkeys).
    rewrite IHd by assumption. rewrite andb_true_r.
    rewrite has_key_app. apply negb_true_iff in Hkv'. rewrite Hkv'.
    cbn [has_key existsb fst orb]. rewrite orb_false_r.
    rewrite Hkey' in Hne. now rewrite is_key_sym, Hne.
Qed.

(** A scanner that reads the values of the members reads them one after
    the other, up to the closing brace. *)
Lemma object_loop_members scan text d :
  distinct_keys d = true ->
  Forall (fun kv => reads scan (snd kv) (text (snd kv))) d ->
  forall key v pairs fuel rest,
    plain_str key = true ->
    reads scan v (text v) ->
    (length d <= fuel)%nat ->
    object_loop scan fuel pairs
      (flat_map escape_char key ++ quote :: lit ": " ++ text v
       ++ more_members text d ++ lit "}" ++ rest)
    = Return (PDict (dict_of_pairs
                       (pairs ++ (key, v)
                        :: map (fun kv => (key_str (fst kv), snd kv)) d)),
              rest).
Proof.
  clear_floats.
  intros Hkeys Hd. revert Hkeys.
  induction Hd as [|kv d Hkv Hd IH];
    intros Hkeys key v pairs fuel rest Hkey [Hstart Hv] Hfuel;
    rewrite object_loop_eq;
    destruct (plain_str_spec key Hkey) as [Hstr Hjoin];
    rewrite scanstring_encoded, Hjoin by assumption;
    cbn [app lit map list_ascii_of_string]; scan_step;
    rewrite starts_value_skip_ws by assumption.
  - cbn [more_members flat_map app lit map list_ascii_of_string].
    rewrite Hv by reflexivity. scan_step. reflexivity.
  - apply distinct_keys_cons in Hkeys as (_ & Hkey' & _ & Hkeys).
    unfold more_members. cbn [flat_map]. fold (more_members text d).
    unfold encode_basestring_ascii. rewrite <- !app_assoc.
    cbn [app lit map list_ascii_of_string length] in *.
    rewrite <- !app_assoc. cbn [app].
    rewrite Hv by reflexivity. scan_step.
    destruct fuel as [|fuel]; [lia|].
    rewrite (IH Hkeys (key_str (fst kv)) (snd kv)) by (assumption || lia).
    cbn [map]. now rewrite <- app_assoc.
Qed.

Lemma JSONArray_start scan t rest :
  starts_value t = true ->
  JSONArray scan (t ++ rest)
  = array_loop scan (length (t ++ rest)) [] (t ++ rest).
Proof.
  clear_floats.
  intros Hstart. unfold JSONArray. rewrite starts_value_skip_ws by assumption.
  destruct t as [|c t]; [discriminate Hstart|]. cbn [app starts_value] in *.
  destruct (c =? ord "]"); [|reflexivity].
  now rewrite andb_false_r in Hstart.
Qed.

(** The encoder prints every such value without raising, and the scanner
    reads the value from what the encoder printed. *)
Lemma plain_reads depth : forall v,
  plain depth v = true ->
  snd (iterencode depth v) = None /\
  reads (scan_once depth) v (text_at depth v).
Proof.
  induction depth as [|depth IH]; intros v Hv; [discriminate Hv|].
  destruct (encode_scalar v) as [t|] eqn:Ht.
  { assert (Hv1 : plain 1 v = true).
    { destruct v; try discriminate Ht; try exact Hv; reflexivity. }
    rewrite (encode_scalar_text depth v t Ht). cbn [iterencode]. rewrite Ht.
    split; [reflexivity|]. now apply reads_scalar. }
  destruct v as [| [|] | z | x | s | l | d | cls]; try discriminate Ht;
    try discriminate Hv; cbn [plain] in Hv.
  - (* a list *)
    destruct (iterencode_list_loop_text depth l Hv (fun v Hp => proj1 (IH v Hp))
                (lit "[")) as [Hstop Htext].
    unfold text_at. cbn [iterencode encode_scalar iterencode_list].
    destruct l as [|v l]; [split; [reflexivity|]; split; reflexivity|].
    unfold iterencode_list. split; [assumption|]. rewrite Htext. split; [reflexivity|].
    intros rest Hrest. cbn [forallb] in Hv. apply andb_prop in Hv as [Hv Hl].
    destruct (IH v Hv) as [_ Hreads].
    assert (Hall : Forall (fun u => reads (scan_once depth) u (text_at depth u)) l).
    { apply List.Forall_forall. intros u Hu.
      apply IH, (proj1 (List.forallb_forall _ _) Hl), Hu. }
    rewrite <- !app_assoc. change (lit "[") with [ord "["].
    cbn [app scan_once]. scan_step.
    rewrite JSONArray_start by apply Hreads.
    rewrite (array_loop_elements _ (text_at depth) l Hall v [] _ rest Hreads);
      [reflexivity|].
    rewrite !length_app. pose proof (length_more_elements (text_at depth) l). lia.
  - (* a dictionary *)
    apply andb_prop in Hv as [Hkeys Hd].
    destruct (iterencode_dict_loop_text depth d Hkeys Hd
                (fun v Hp => proj1 (IH v Hp)) true) as [Hstop Htext].
    unfold text_at. cbn [iterencode encode_scalar iterencode_dict].
    destruct d as [|kv d]; [split; [reflexivity|]; split; reflexivity|].
    unfold iterencode_dict.
    destruct (iterencode_dict_loop (iterencode depth) true (kv :: d))
      as [cs stop]. cbn [fst snd] in *. subst stop.
    cbn [yield andthen fst snd concat app]. split; [reflexivity|].
    rewrite Htext. split; [reflexivity|]. intros rest Hrest.
    pose proof Hkeys as Hkeys0.
    apply distinct_keys_cons in Hkeys as (Hkey & Hplain & _ & Hkeys).
    cbn [forallb] in Hd. apply andb_prop in Hd as [Hv Hd].
    destruct (IH _ Hv) as [_ Hreads].
    assert (Hall : Forall (fun kv' => reads (scan_once depth) (snd kv')
                                        (text_at depth (snd kv'))) d).
    { apply List.Forall_forall. intros kv' Hin.
      apply IH. exact (proj1 (List.forallb_forall _ _) Hd kv' Hin). }
    unfold encode_basestring_ascii. rewrite <- !app_assoc.
    cbn [app lit map list_ascii_of_string scan_once]. scan_step.
    rewrite <- !app_assoc. cbn [app].
    unfold JSONObject. scan_step.
    pose proof (object_loop_members (scan_once depth) (text_at depth) d Hkeys Hall
                  (key_str (fst kv)) (snd kv) []) as Hloop.
    cbn [app lit map list_ascii_of_string] in Hloop.
    rewrite Hloop; try assumption.
    + unfold dict_of_pairs.
      change ((key_str (fst kv), snd kv)
              :: map (fun kv0 => (key_str (fst kv0), snd kv0)) d)
        with (map (fun kv0 => (key_str (fst kv0), snd kv0)) (kv :: d)).
      rewrite (dict_of_pairs_distinct (kv :: d) [] Hkeys0); [reflexivity|].
      clear. induction (kv :: d) as [|a l IHl]; [reflexivity|].
      cbn [forallb]. now rewrite IHl.
    + repeat first [rewrite length_app | progress cbn [length]].
      pose proof (length_more_members (text_at depth) d). lia.
Qed.

Lemma skip_ws_blank a s : blank a = true -> skip_ws (a ++ s) = skip_ws s.
Proof.
  clear_floats.
  induction a as [|c a IH]; [reflexivity|]. cbn [blank forallb app skip_ws].
  intros H. apply andb_prop in H as [-> Ha]. now apply IH.
Qed.

Lemma number_end_blank b : blank b = true -> number_end b = true.
Proof.
  clear_floats.
  destruct b as [|c b]; [reflexivity|]. cbn [blank forallb number_end].
  intros H. apply andb_prop in H as [Hc _]. unfold is_ws, is_digit in *.
  change (ord ".") with 46. change (ord "e") with 101. change (ord "E") with 69.
  lia.
Qed.

(** A text that starts with blanks or with a value does not start with a
    byte order mark. *)
Lemma no_bom a t rest :
  blank a = true -> starts_value t = true ->
  strip_prefix [0xfeff] (a ++ t ++ rest) = None.
Proof.
  clear_floats.
  intros Ha Ht.
  assert (Hhead : exists c s, a ++ t ++ rest = c :: s /\ c <> 0xfeff).
  { destruct a as [|c a].
    - destruct t as [|c t]; [discriminate Ht|]. exists c, (t ++ rest).
      split; [reflexivity|]. cbn [starts_value] in Ht. lia.
    - exists c, (a ++ t ++ rest). split; [reflexivity|].
      cbn [blank forallb] in Ha. unfold is_ws in Ha. lia. }
  destruct Hhead as (c & s & -> & Hc). cbn [strip_prefix].
  destruct (N.eqb_spec 0xfeff c) as [Heq|_]; [|reflexivity].
  now elim Hc.
Qed.


Lemma text_at_chunks v : text_at recursion_limit v = concat (fst (json_chunks v)).
Proof. unfold text_at, json_chunks. reflexivity. Qed.

(** [json.loads] reads a value from a text the scanner reads it from, with
    blanks before and after or without. *)
Lemma json_loads_reads a b v t :
  blank a = true -> blank b = true ->
  reads (scan_once recursion_limit) v t ->
  json_loads (a ++ t ++ b) = Return v.
Proof.
  intros Ha Hb (Hstart & Hscan).
  unfold json_loads. rewrite no_bom by assumption.
  rewrite skip_ws_blank by assumption.
  rewrite starts_value_skip_ws by assumption.
  rewrite Hscan by now apply number_end_blank. cbn [expecting_value].
  rewrite <- (app_nil_r b), skip_ws_blank by assumption. reflexivity.
Qed.

Lemma json_loads_text v t :
  reads (scan_once recursion_limit) v t -> json_loads t = Return v.
Proof.
  intros H. pose proof (json_loads_reads [] [] v t eq_refl eq_refl H) as Hl.
  cbn [app] in Hl. now rewrite app_nil_r in Hl.
Qed.

(** On such a value the encoder does not raise, and [json.loads] reads the
    value from what the encoder yields. *)
Lemma json_loads_chunks v :
  plain recursion_limit v = true ->
  snd (json_chunks v) = None /\
  json_loads (concat (fst (json_chunks v))) = Return v.
Proof.
  intros Hv. rewrite <- text_at_chunks.
  destruct (plain_reads recursion_limit v Hv) as (Hstop & Hreads).
  split; [exact Hstop | now apply json_loads_text].
Qed.

Lemma returns_writable todo_list w :
  fst (save todo_list w) = Return tt -> writable_store w.
Proof.
  intros Hret. rewrite save_not_opened in Hret. unfold writable_store.
  destruct (files w !! file_name) as [[r [|] data|]|]; try discriminate Hret;
    [reflexivity|].
  now destruct (may_create w).
Qed.

(** X1. For every value made of [None], booleans, integers, strings in
    which no high surrogate is followed by a low one, lists and
    dictionaries with distinct string keys, nested less deep than the
    recursion limit: when the file is absent and can be created or is a
    readable and writable regular file, and [save] of the value returns,
    [fetch] returns a value equal to it. *)
Theorem save_fetch_plain (v : pyval) (w : world) :
  usable w ->
  plain recursion_limit v = true ->
  fst (save v w) = Return tt ->
  fst (fetch (snd (save v w))) = Return v.
Proof.
  intros Hw Hv Hret. destruct (usable_writable w Hw) as [Hwr Hr].
  destruct (fits (room w) (concat (fst (json_chunks v)))) eqn:Hfits.
  - rewrite save_eq by assumption. cbn [snd].
    rewrite fetch_eq, lookup_saved, Hr.
    now rewrite (proj2 (json_loads_chunks v Hv)).
  - rewrite save_full in Hret by assumption. discriminate Hret.
Qed.


(** X3. What [fetch] returns after a [save] of task records, whatever
    their strings: the records in their order, with every high surrogate
    that is followed by a low one joined with it to the one code point
    the pair stands for. *)
Theorem save_fetch_joins (l : list item) (w : world) :
  usable w ->
  Forall is_item l ->
  fst (save (todo_value l) w) = Return tt ->
  fst (fetch (snd (save (todo_value l) w))) = Return (todo_value (map join_item l)).
Proof.
  intros Hw Hl Hret. now rewrite save_fetch_joined by assumption.
Qed.

(** X4. A file that parses is returned as it was parsed, whatever its
    shape: [fetch] prints nothing, leaves no file object open and leaves
    the world as it was. *)
Theorem fetch_returns_parsed (w : world) (wr : bool) (t : pystr) (obj : pyval) :
  files w !! file_name = Some (File true wr (Text t)) ->
  json_loads t = Return obj ->
  fetch w = (Return obj, w).
Proof. intros Hfile Hparse. now rewrite fetch_eq, Hfile, Hparse. Qed.


(** X6. When the file cannot be opened for writing (it is a directory, it
    may not be written, or it is absent and cannot be created), [save]
    raises the error of [open] and changes nothing: what the file held
    is still there. *)
Theorem save_unopened (todo_list : pyval) (w : world) :
  ~ writable_store w ->
  (save todo_list w = (Raise IsADirectoryError, w) \/
   save todo_list w = (Raise PermissionError, w)).
Proof.
  intros Hw. rewrite save_not_opened. unfold writable_store in Hw.
  destruct (files w !! file_name) as [[r [|] data|]|];
    [now elim Hw | now right | now left |].
  destruct (may_create w); [now elim Hw | now right].
Qed.

(** X7. [fetch] can be repeated: a second [fetch] returns what the first
    returned. *)
Theorem fetch_twice (w : world) : fst (fetch (snd (fetch w))) = fst (fetch w).
Proof.
  rewrite (fetch_eq (snd (fetch w))). rewrite !fetch_eq.
  destruct (files w !! file_name) as [[[|] wr [t|]|]|] eqn:Hfile;
    cbn [snd fst files set_stdout]; rewrite ?Hfile; try reflexivity.
  destruct (json_loads t) as [obj|e] eqn:Hparse;
    cbn [snd fst files set_stdout]; now rewrite Hfile, Hparse.
Qed.

(** ** What a save leaves behind *)

Lemma open_w w :
  writable_store w ->
  open_ file_name ModeW w
  = (Return {| name := file_name; mode := ModeW |},
     set_opened ({| name := file_name; mode := ModeW |} :: opened w)
       (set_files (<[file_name := File (readable_after w) true (Text [])]> (files w))
          w)).
Proof.
  clear_floats.
  unfold writable_store, readable_after, open_.
  destruct (files w !! file_name) as [[r wr data|]|]; intros Hw;
    [now subst wr | contradiction | now rewrite Hw].
Qed.

Lemma set_files_twice m m' w : set_files m (set_files m' w) = set_files m w.
Proof. clear_floats. now destruct w. Qed.

(** What [write_chunks] leaves in the file is what was there and a prefix
    of the chunks. *)
Lemma write_chunks_prefix fp chunks : forall w r wr t,
  mode fp = ModeW ->
  files w !! name fp = Some (File r wr (Text t)) ->
  exists t' rest,
    concat chunks = t' ++ rest /\
    snd (write_chunks fp chunks w)
    = set_files (<[name fp := File r wr (Text (t ++ t'))]> (files w)) w.
Proof.
  clear_floats.
  induction chunks as [|chunk chunks IH]; intros w r wr t Hmode Hfile.
  - exists [], []. split; [reflexivity|]. cbn [write_chunks ret snd].
    rewrite app_nil_r, insert_id by assumption. now rewrite set_files_same.
  - cbn [write_chunks concat]. unfold bind, write at 1. rewrite Hmode, Hfile.
    destruct (fits (room w) (t ++ chunk)).
    + destruct (IH (set_files (<[name fp := File r wr (Text (t ++ chunk))]> (files w)) w)
                  r wr (t ++ chunk) Hmode) as (t' & rest & Hcat & Hsnd).
      { cbn [files set_files]. apply lookup_insert_eq. }
      exists (chunk ++ t'), rest. split; [now rewrite Hcat, app_assoc|].
      rewrite Hsnd. cbn [files set_files].
      now rewrite insert_insert_eq, set_files_twice, app_assoc.
    + exists [], (chunk ++ concat chunks). split; [reflexivity|]. cbn [snd].
      rewrite app_nil_r, insert_id by assumption. now rewrite set_files_same.
Qed.

(** Once the file is open, [save] leaves a prefix of what the encoder
    yields in it, and nothing else has changed. *)
Lemma save_saved todo_list w :
  writable_store w ->
  exists t' rest,
    concat (fst (json_chunks todo_list)) = t' ++ rest /\
    snd (save todo_list w) = saved t' w.
Proof.
  intros Hw. unfold save, with_open. rewrite open_w by assumption.
  unfold json_dump. destruct (json_chunks todo_list) as [chunks stopped].
  cbn [fst]. unfold bind.
  set (f := {| name := file_name; mode := ModeW |}).
  set (w1 := set_opened _ _).
  destruct (write_chunks_prefix f chunks w1 (readable_after w) true [] eq_refl)
    as (t' & rest & Hcat & Hsnd).
  { subst w1. cbn [files set_files set_opened name f]. apply lookup_insert_eq. }
  exists t', rest. split; [assumption|].
  assert (Hclosed : snd (close f (snd (write_chunks f chunks w1))) = saved t' w).
  { rewrite Hsnd. subst w1 f. unfold saved, close.
    cbn [snd app name files opened set_files set_opened].
    rewrite insert_insert_eq, remove_first_head. now destruct w. }
  destruct (write_chunks f chunks w1) as [[[]|e] w2]; cbn [snd] in *;
    [destruct stopped|]; exact Hclosed.
Qed.

Lemma save_after_saved todo_list t w :
  writable_store w -> save todo_list (saved t w) = save todo_list w.
Proof.
  intros Hw. unfold save, with_open.
  assert (Hw' : writable_store (saved t w)).
  { unfold writable_store. now rewrite lookup_saved. }
  rewrite (open_w w Hw), (open_w (saved t w) Hw').
  assert (Hr : readable_after (saved t w) = readable_after w).
  { unfold readable_after at 1. now rewrite lookup_saved. }
  rewrite Hr. unfold saved. cbn [files opened set_files].
  now rewrite insert_insert_eq, set_files_twice.
Qed.

Lemma save_not_writable todo_list w :
  ~ writable_store w -> snd (save todo_list w) = w.
Proof.
  intros Hw. rewrite save_not_opened. unfold writable_store in Hw.
  destruct (files w !! file_name) as [[r [|] data|]|];
    [now elim Hw | reflexivity | reflexivity |].
  destruct (may_create w); [now elim Hw | reflexivity].
Qed.

Lemma writable_store_dec w : writable_store w \/ ~ writable_store w.
Proof.
  clear_floats.
  unfold writable_store.
  destruct (files w !! file_name) as [[r [|] data|]|]; auto.
  destruct (may_create w); auto.
Qed.

(** X8. The last [save] wins, and wholly: for all values [A] and [B] and
    every world, [save(B)] after [save(A)] ends as [save(B)] alone would
    have ended, with the same result and in the same world. Nothing of
    [A] is left in the file, whether the saves return or raise. *)
Theorem save_last_wins (A B : pyval) (w : world) :
  save B (snd (save A w)) = save B w.
Proof.
  destruct (writable_store_dec w) as [Hw|Hw].
  - destruct (save_saved A w Hw) as (t' & rest & _ & ->).
    now apply save_after_saved.
  - now rewrite save_not_writable.
Qed.

(** X9. [save] never leaves anything in the file but the beginning of the
    text of the value: once the file is open, however [save] ends, the
    file holds a prefix of what the encoder yields for the value, and the
    rest of the world is as before. The prefix is the whole text when
    [save] returns. *)
Theorem save_leaves_prefix (todo_list : pyval) (w : world) :
  writable_store w ->
  exists t' rest,
    concat (fst (json_chunks todo_list)) = t' ++ rest /\
    snd (save todo_list w) = saved t' w /\
    (fst (save todo_list w) = Return tt -> rest = []).
Proof.
  intros Hw.
  destruct (fits (room w) (concat (fst (json_chunks todo_list)))) eqn:Hfits.
  - exists (concat (fst (json_chunks todo_list))), [].
    split; [now rewrite app_nil_r|]. split; [|reflexivity].
    now rewrite save_eq.
  - destruct (save_saved todo_list w Hw) as (t' & rest & Hcat & Hsnd).
    exists t', rest. split; [assumption|]. split; [assumption|].
    rewrite save_full by assumption. discriminate.
Qed.

(** ** The characters in the file *)

Lemma hex_char_printable d : d < 16 -> printable (hex_char d) = true.
Proof. clear_floats. unfold printable, hex_char. intros Hd. destruct (d <? 10) eqn:H; lia. Qed.

Lemma u_escape_printable n : forallb printable (u_escape n) = true.
Proof.
  clear_floats.
  unfold u_escape. cbn [forallb].
  rewrite !hex_char_printable by (apply N.mod_upper_bound; discriminate).
  reflexivity.
Qed.

Lemma replace_printable c : forallb printable (replace c) = true.
Proof.
  clear_floats.
  unfold replace.
  repeat match goal with
         | |- context [if ?b then _ else _] => destruct b; [try reflexivity|]
         end;
    try apply u_escape_printable.
  rewrite forallb_app, !u_escape_printable. reflexivity.
Qed.

Lemma escape_char_printable c : forallb printable (escape_char c) = true.
Proof.
  clear_floats.
  unfold escape_char. destruct (needs_escape c) eqn:Hc;
    [apply replace_printable|].
  unfold needs_escape in Hc. cbn [forallb]. unfold printable.
  destruct ((32 <=? c) && (c <=? 126)); [reflexivity|].
  now rewrite !orb_true_r in Hc.
Qed.

Lemma encode_basestring_ascii_printable s :
  forallb printable (encode_basestring_ascii s) = true.
Proof.
  clear_floats.
  unfold encode_basestring_ascii. cbn [forallb]. rewrite forallb_app.
  replace (forallb printable (flat_map escape_char s)) with true; [reflexivity|].
  induction s as [|c s IH]; [reflexivity|].
  cbn [flat_map]. now rewrite forallb_app, escape_char_printable, <- IH.
Qed.

Lemma uint_chars_printable u : forallb printable (uint_chars u) = true.
Proof. clear_floats. induction u; cbn [uint_chars forallb]; try rewrite IHu; reflexivity. Qed.

Lemma intstr_printable z : forallb printable (intstr z) = true.
Proof.
  clear_floats.
  unfold intstr. destruct (Z.to_int z); cbn [forallb];
    now rewrite uint_chars_printable.
Qed.

Lemma concat_andthen t1 t2 :
  forallb printable (concat (fst t1)) = true ->
  forallb printable (concat (fst t2)) = true ->
  forallb printable (concat (fst (andthen t1 t2))) = true.
Proof.
  clear_floats.
  destruct t1 as [cs [e|]]; cbn [andthen fst]; [trivial|].
  intros H1 H2. rewrite concat_app, forallb_app. now apply andb_true_intro.
Qed.

Lemma concat_yield chunk :
  forallb printable chunk = true ->
  forallb printable (concat (fst (yield chunk))) = true.
Proof. clear_floats. cbn [yield fst concat]. now rewrite app_nil_r. Qed.

Lemma encode_scalar_printable v t :
  (forall x, forallb printable (floatstr x) = true) ->
  encode_scalar v = Some t -> forallb printable t = true.
Proof.
  intros Hfloat.
  destruct v as [| [|] | z | x | s | l | d | cls]; intros [= <-];
    auto using intstr_printable, encode_basestring_ascii_printable.
Qed.

Lemma iterencode_list_loop_printable chunks lst :
  (forall x, forallb printable (floatstr x) = true) ->
  (forall v, forallb printable (concat (fst (chunks v))) = true) ->
  forall buf, forallb printable buf = true ->
  forallb printable (concat (fst (iterencode_list_loop chunks buf lst))) = true.
Proof.
  intros Hfloat Hchunks. induction lst as [|v lst IH]; intros buf Hbuf;
    [reflexivity|].
  cbn [iterencode_list_loop]. apply concat_andthen; [|now apply IH].
  destruct (encode_scalar v) as [t|] eqn:Ht.
  - apply concat_yield. rewrite forallb_app, Hbuf.
    now rewrite (encode_scalar_printable v t Hfloat Ht).
  - apply concat_andthen; [now apply concat_yield | apply Hchunks].
Qed.

Lemma iterencode_dict_loop_printable chunks items :
  (forall x, forallb printable (floatstr x) = true) ->
  (forall v, forallb printable (concat (fst (chunks v))) = true) ->
  forall first,
  forallb printable (concat (fst (iterencode_dict_loop chunks first items))) = true.
Proof.
  intros Hfloat Hchunks. induction items as [|[key v] items IH]; intros first;
    [reflexivity|].
  cbn [iterencode_dict_loop]. destruct (encode_key key) as [k|e]; [|reflexivity].
  apply concat_andthen; [now destruct first|].
  apply concat_andthen;
    [apply concat_yield, encode_basestring_ascii_printable|].
  apply concat_andthen; [reflexivity|].
  apply concat_andthen; [|apply IH].
  destruct (encode_scalar v) as [t|] eqn:Ht; [|apply Hchunks].
  apply concat_yield. now apply (encode_scalar_printable v t).
Qed.

(** Given that floating point numbers are printed in ASCII, all that the
    encoder yields is ASCII, whether it ends or raises. *)
Lemma iterencode_printable depth :
  (forall x, forallb printable (floatstr x) = true) ->
  forall o, forallb printable (concat (fst (iterencode depth o))) = true.
Proof.
  intros Hfloat. induction depth as [|depth IH]; intros o; [reflexivity|].
  cbn [iterencode]. destruct (encode_scalar o) as [t|] eqn:Ht.
  { apply concat_yield. now apply (encode_scalar_printable o t). }
  destruct o as [| [|] | z | x | s | l | d | cls]; try discriminate Ht.
  - unfold iterencode_list. destruct l as [|v l]; [reflexivity|].
    now apply iterencode_list_loop_printable.
  - unfold iterencode_dict. destruct d as [|kv d]; [reflexivity|].
    apply concat_andthen; [reflexivity|].
    now apply iterencode_dict_loop_printable.
  - reflexivity.
Qed.

Lemma json_chunks_printable o :
  (forall x, forallb printable (floatstr x) = true) ->
  forallb printable (concat (fst (json_chunks o))) = true.
Proof. intros Hfloat. unfold json_chunks. now apply iterencode_printable. Qed.

(** X10. [save] writes ASCII only: given that floating point numbers are
    printed in ASCII, whatever value is saved and however [save] ends, once
    the file is open it holds printable ASCII characters and nothing else;
    every other character of a string is escaped. *)
Theorem save_writes_ascii (todo_list : pyval) (w : world) :
  (forall x, forallb printable (floatstr x) = true) ->
  writable_store w ->
  exists t,
    files (snd (save todo_list w)) !! file_name
    = Some (File (readable_after w) true (Text t)) /\
    forallb printable t = true.
Proof.
  intros Hfloat Hw.
  destruct (save_saved todo_list w Hw) as (t' & rest & Hcat & ->).
  exists t'. split; [apply lookup_saved|].
  pose proof (json_chunks_printable todo_list Hfloat) as Hall.
  rewrite Hcat, forallb_app in Hall.
  now apply andb_prop in Hall as [? _].
Qed.

(** ** A list with an object the encoder does not know *)








End Json.

(** * The claims on examples *)

(** C1 as stated fails: a record whose content is a high surrogate followed
    by a low one is saved without error, and [fetch] returns a record whose
    content is the one code point the pair stands for. *)
Lemma roundtrip_counterexample :
  usable empty_world /\
  Forall is_item [surrogates] /\
  fst (save numeral_str (todo_value [surrogates]) empty_world) = Return tt /\
  fst (fetch numeral_of (snd (save numeral_str (todo_value [surrogates]) empty_world)))
  <> Return (todo_value [surrogates]).
Proof.
  split; [reflexivity|]. split.
  { repeat constructor. }
  split; [vm_compute; reflexivity|].
  vm_compute. discriminate.
Qed.

Lemma save_fetch_roundtrip_witness :
  usable empty_world /\
  Forall is_item [milk] /\
  Forall (fun i => pair_free_item i = true) [milk] /\
  fst (save numeral_str (todo_value [milk]) empty_world) = Return tt /\
  fst (fetch numeral_of (snd (save numeral_str (todo_value [milk]) empty_world)))
  = Return (todo_value [milk]).
Proof.
  assert (Hw : usable empty_world) by reflexivity.
  assert (Hl : Forall is_item [milk]) by (repeat constructor).
  assert (Hfree : Forall (fun i => pair_free_item i = true) [milk])
    by (repeat constructor).
  assert (Hret : fst (save numeral_str (todo_value [milk]) empty_world) = Return tt)
    by (vm_compute; reflexivity).
  split; [assumption|]. split; [assumption|]. split; [assumption|].
  split; [assumption|].
  apply (save_fetch_roundtrip numeral_of numeral_str [milk] empty_world);
    assumption.
Defined.

(** C2 as stated fails: a file that holds the number 42 parses, to a value
    that is no list of records; [fetch] returns it as it is and prints
    nothing. *)
Lemma wrong_shape_counterexample :
  json_loads numeral_of (lit "42") = Return (PInt 42) /\
  fetch numeral_of (world_with (Text (lit "42")))
  = (Return (PInt 42), world_with (Text (lit "42"))) /\
  fst (fetch numeral_of (world_with (Text (lit "42")))) <> Return (PList []).
Proof.
  split; [vm_compute; reflexivity|].
  split; [vm_compute; reflexivity|].
  vm_compute. discriminate.
Qed.

Lemma fetch_masks_failures_witness :
  load_failure numeral_of (world_with (Text (lit "[1,")))
    (JSONDecodeError "Expecting value") /\
  fetch numeral_of (world_with (Text (lit "[1,")))
  = (Return (PList []),
     set_stdout [JSONDecodeError "Expecting value"] (world_with (Text (lit "[1,")))).
Proof.
  assert (Hfail : load_failure numeral_of (world_with (Text (lit "[1,")))
                    (JSONDecodeError "Expecting value"))
    by (vm_compute; reflexivity).
  split; [assumption|].
  apply (proj2 (fetch_masks_failures numeral_of (world_with (Text (lit "[1,"))))
               (JSONDecodeError "Expecting value")).
  assumption.
Defined.

Lemma fetch_missing_file_witness :
  files empty_world !! file_name = None /\
  fst (fetch numeral_of empty_world) = Return (PList []).
Proof.
  split; [reflexivity|].
  apply (fetch_missing_file numeral_of empty_world). reflexivity.
Defined.

Lemma fetch_corrupt_file_witness :
  files (world_with (Text (lit "{not json"))) !! file_name
  = Some (File true true (Text (lit "{not json"))) /\
  json_loads numeral_of (lit "{not json")
  = Raise (JSONDecodeError "Expecting property name enclosed in double quotes") /\
  fst (fetch numeral_of (world_with (Text (lit "{not json")))) = Return (PList []).
Proof.
  assert (Hfile : files (world_with (Text (lit "{not json"))) !! file_name
                  = Some (File true true (Text (lit "{not json"))))
    by (vm_compute; reflexivity).
  assert (Hparse : json_loads numeral_of (lit "{not json")
                   = Raise (JSONDecodeError
                              "Expecting property name enclosed in double quotes"))
    by (vm_compute; reflexivity).
  split; [assumption|]. split; [assumption|].
  apply (fetch_corrupt_file numeral_of _ true true (lit "{not json") _ Hfile Hparse).
Defined.

(** C5 as stated fails for the same list as C1: saved over another list, it
    is not what [fetch] returns. *)
Lemma overwrite_counterexample :
  usable empty_world /\
  Forall is_item [surrogates] /\
  fst (save numeral_str (todo_value [surrogates])
         (snd (save numeral_str (todo_value [milk]) empty_world))) = Return tt /\
  fst (fetch numeral_of
         (snd (save numeral_str (todo_value [surrogates])
                 (snd (save numeral_str (todo_value [milk]) empty_world)))))
  <> Return (todo_value [surrogates]).
Proof.
  split; [reflexivity|]. split.
  { repeat constructor. }
  split; [vm_compute; reflexivity|].
  vm_compute. discriminate.
Qed.

Lemma save_overwrites_witness :
  usable empty_world /\
  Forall is_item [eggs] /\
  Forall (fun i => pair_free_item i = true) [eggs] /\
  fst (save numeral_str (todo_value [eggs])
         (snd (save numeral_str (todo_value [milk]) empty_world))) = Return tt /\
  files (snd (save numeral_str (todo_value [eggs])
                (snd (save numeral_str (todo_value [milk]) empty_world))))
    !! file_name = Some (File true true (Text (todo_text [eggs]))) /\
  fst (fetch numeral_of
         (snd (save numeral_str (todo_value [eggs])
                 (snd (save numeral_str (todo_value [milk]) empty_world)))))
  = Return (todo_value [eggs]).
Proof.
  assert (Hw : usable empty_world) by reflexivity.
  assert (Hl : Forall is_item [eggs]) by (repeat constructor).
  assert (Hfree : Forall (fun i => pair_free_item i = true) [eggs])
    by (repeat constructor).
  assert (Hret : fst (save numeral_str (todo_value [eggs])
                        (snd (save numeral_str (todo_value [milk]) empty_world)))
                 = Return tt)
    by (vm_compute; reflexivity).
  split; [assumption|]. split; [assumption|]. split; [assumption|].
  split; [assumption|].
  apply (save_overwrites numeral_of numeral_str (todo_value [milk]) [eggs]
           empty_world); assumption.
Defined.

Lemma save_propagates_witness :
  save_failure numeral_str (todo_value [milk]) read_only_world PermissionError /\
  fst (save numeral_str (todo_value [milk]) read_only_world) = Raise PermissionError /\
  save_failure numeral_str (todo_value [milk]) small_world NoSpaceLeftOnDevice /\
  fst (save numeral_str (todo_value [milk]) small_world) = Raise NoSpaceLeftOnDevice /\
  save_failure numeral_str (PList [PInt 1; PObj "set"]) empty_world
    (not_serializable "set") /\
  fst (save numeral_str (PList [PInt 1; PObj "set"]) empty_world)
  = Raise (not_serializable "set").
Proof.
  assert (H1 : save_failure numeral_str (todo_value [milk]) read_only_world
                 PermissionError) by (vm_compute; reflexivity).
  assert (H2 : save_failure numeral_str (todo_value [milk]) small_world
                 NoSpaceLeftOnDevice) by (vm_compute; reflexivity).
  assert (H3 : save_failure numeral_str (PList [PInt 1; PObj "set"]) empty_world
                 (not_serializable "set")) by (vm_compute; reflexivity).
  split; [assumption|]. split.
  { apply (save_propagates numeral_str _ _ _ H1). }
  split; [assumption|]. split.
  { apply (save_propagates numeral_str _ _ _ H2). }
  split; [assumption|].
  apply (save_propagates numeral_str _ _ _ H3).
Defined.

Lemma store_file_witness :
  Forall is_item [milk] /\
  fst (save numeral_str (todo_value [milk]) empty_world) = Return tt /\
  (exists r, files (snd (save numeral_str (todo_value [milk]) empty_world))
               !! file_name = Some (File r true (Text (todo_text [milk])))) /\
  json_loads numeral_of (todo_text [milk])
  = Return (todo_value (map join_item [milk])).
Proof.
  assert (Hl : Forall is_item [milk]) by (repeat constructor).
  assert (Hret : fst (save numeral_str (todo_value [milk]) empty_world) = Return tt)
    by (vm_compute; reflexivity).
  split; [assumption|]. split; [assumption|].
  apply (proj2 (proj2 (proj2 (store_file numeral_of numeral_str)))
               [milk] empty_world Hl Hret).
Defined.

Lemma save_releases_witness :
  open_ file_name ModeW empty_world
  = (Return {| name := file_name; mode := ModeW |},
     set_opened [{| name := file_name; mode := ModeW |}]
       (set_files {[file_name := File true true (Text [])]} empty_world)) /\
  opened (snd (save numeral_str (todo_value [milk]) empty_world)) = [] /\
  opened (snd (json_dump numeral_str (todo_value [milk])
                 {| name := file_name; mode := ModeW |}
                 (set_opened [{| name := file_name; mode := ModeW |}]
                    (set_files {[file_name := File true true (Text [])]}
                       empty_world))))
  = [{| name := file_name; mode := ModeW |}].
Proof.
  assert (Hopen : open_ file_name ModeW empty_world
    = (Return {| name := file_name; mode := ModeW |},
       set_opened [{| name := file_name; mode := ModeW |}]
         (set_files {[file_name := File true true (Text [])]} empty_world)))
    by (vm_compute; reflexivity).
  split; [assumption|]. split.
  - apply (proj1 (save_releases numeral_str (todo_value [milk]) empty_world)).
  - apply (proj2 (save_releases numeral_str (todo_value [milk]) empty_world)
             _ _ Hopen).
Defined.

Lemma save_not_atomic_witness :
  usable empty_world /\
  Forall is_item [milk] /\
  Forall (fun i => pair_free_item i = true) [milk] /\
  [milk] <> [] /\
  fst (save numeral_str (todo_value [milk]) empty_world) = Return tt /\
  fst (save numeral_str (PList [PObj "set"])
         (snd (save numeral_str (todo_value [milk]) empty_world)))
  = Raise (not_serializable "set") /\
  fst (fetch numeral_of
         (snd (save numeral_str (PList [PObj "set"])
                 (snd (save numeral_str (todo_value [milk]) empty_world)))))
  = Return (PList []).
Proof.
  assert (Hw : usable empty_world) by reflexivity.
  assert (Hl : Forall is_item [milk]) by (repeat constructor).
  assert (Hfree : Forall (fun i => pair_free_item i = true) [milk])
    by (repeat constructor).
  assert (Hne : [milk] <> []) by discriminate.
  assert (Hret : fst (save numeral_str (todo_value [milk]) empty_world) = Return tt)
    by (vm_compute; reflexivity).
  split; [assumption|]. split; [assumption|]. split; [assumption|].
  split; [assumption|]. split; [assumption|].
  destruct (save_not_atomic numeral_of numeral_str [milk] "set" empty_world
              Hw Hl Hfree Hne Hret) as (_ & Hraise & _ & Hfetch & _).
  split; assumption.
Defined.

(** * The further properties on examples *)

Lemma save_fetch_plain_witness :
  usable empty_world /\
  plain recursion_limit (settings (float := numeral)) = true /\
  fst (save numeral_str settings empty_world) = Return tt /\
  fst (fetch numeral_of (snd (save numeral_str settings empty_world)))
  = Return settings.
Proof.
  assert (Hw : usable empty_world) by reflexivity.
  assert (Hv : plain recursion_limit (settings (float := numeral)) = true)
    by (vm_compute; reflexivity).
  assert (Hret : fst (save numeral_str settings empty_world) = Return tt)
    by (vm_compute; reflexivity).
  split; [assumption|]. split; [assumption|]. split; [assumption|].
  apply (save_fetch_plain numeral_of numeral_str settings empty_world);
    assumption.
Defined.


Lemma save_fetch_joins_witness :
  usable empty_world /\
  Forall is_item [surrogates] /\
  fst (save numeral_str (todo_value [surrogates]) empty_world) = Return tt /\
  fst (fetch numeral_of (snd (save numeral_str (todo_value [surrogates]) empty_world)))
  = Return (todo_value (map join_item [surrogates])).
Proof.
  assert (Hw : usable empty_world) by reflexivity.
  assert (Hl : Forall is_item [surrogates]) by (repeat constructor).
  assert (Hret : fst (save numeral_str (todo_value [surrogates]) empty_world)
                 = Return tt) by (vm_compute; reflexivity).
  split; [assumption|]. split; [assumption|]. split; [assumption|].
  apply (save_fetch_joins numeral_of numeral_str [surrogates] empty_world);
    assumption.
Defined.

Lemma fetch_returns_parsed_witness :
  files (world_with (Text (lit "[[1, null], true]"))) !! file_name
  = Some (File true true (Text (lit "[[1, null], true]"))) /\
  json_loads numeral_of (lit "[[1, null], true]")
  = Return (PList [PList [PInt 1; PNone]; PBool true]) /\
  fetch numeral_of (world_with (Text (lit "[[1, null], true]")))
  = (Return (PList [PList [PInt 1; PNone]; PBool true]),
     world_with (Text (lit "[[1, null], true]"))).
Proof.
  assert (Hfile : files (world_with (Text (lit "[[1, null], true]"))) !! file_name
                  = Some (File true true (Text (lit "[[1, null], true]"))))
    by (vm_compute; reflexivity).
  assert (Hparse : json_loads numeral_of (lit "[[1, null], true]")
                   = Return (PList [PList [PInt 1; PNone]; PBool true]))
    by (vm_compute; reflexivity).
  split; [assumption|]. split; [assumption|].
  apply (fetch_returns_parsed numeral_of _ true _ _ Hfile Hparse).
Defined.


Lemma save_unopened_witness :
  ~ writable_store read_only_world /\
  save numeral_str (todo_value [milk]) read_only_world
  = (Raise PermissionError, read_only_world).
Proof.
  assert (Hw : ~ writable_store read_only_world).
  { intros H. vm_compute in H. discriminate H. }
  split; [assumption|].
  destruct (save_unopened numeral_str (todo_value [milk]) read_only_world Hw)
    as [Hdir|Hperm]; [|exact Hperm].
  vm_compute in Hdir. discriminate Hdir.
Defined.

Lemma save_leaves_prefix_witness :
  writable_store small_world /\
  exists t' rest,
    concat (fst (json_chunks numeral_str (todo_value [milk]))) = t' ++ rest /\
    snd (save numeral_str (todo_value [milk]) small_world) = saved t' small_world /\
    (fst (save numeral_str (todo_value [milk]) small_world) = Return tt -> rest = []).
Proof.
  assert (Hw : writable_store small_world) by reflexivity.
  split; [assumption|].
  apply (save_leaves_prefix numeral_str (todo_value [milk]) small_world Hw).
Defined.

Lemma save_writes_ascii_witness :
  (forall x, forallb printable (special_str x) = true) /\
  writable_store empty_world /\
  exists t,
    files (snd (save special_str (PList [PFloat NaN; PStr [0xe9; 0x1f600]])
                  empty_world)) !! file_name
    = Some (File (readable_after empty_world) true (Text t)) /\
    forallb printable t = true.
Proof.
  assert (Hfloat : forall x, forallb printable (special_str x) = true).
  { intros x. destruct x; reflexivity. }
  assert (Hw : writable_store empty_world) by reflexivity.
  split; [assumption|]. split; [assumption|].
  apply (save_writes_ascii special_str _ empty_world Hfloat Hw).
Defined.

